(** * serial: unique serial numbers and a history of seen values

    A verification development for the Go package [serial]
    (file [serial.go]).  The package has one type, [Generator], with a
    ratchet [lastSerial] and a map [seen] used as a set, and five
    operations: [NewGenerator], [Seen], [SetSeen], [ExpireSeen] and
    [Generate].

    The development has three layers:
    - [Int64] and [Time]: the machine integers and the part of Go's [time]
      package that the code calls;
    - the methods as functions on the fields of one [Generator];
    - a store of instances addressed by pointers, with the calls a client
      can make and their results, for the statements about histories of
      calls and about several instances. *)

From Stdlib Require Import ZArith Lia List.
From stdpp Require Import base option list sorting strings gmap fin_maps.

Local Open Scope Z_scope.

(** ** Signed 64-bit integers *)

Module Int64.

Definition min_int64 : Z := - 2 ^ 63.
Definition max_int64 : Z := 2 ^ 63 - 1.

(** Membership in the range of Go's [int64]. *)
Definition in_range (z : Z) : Prop := min_int64 <= z <= max_int64.

(** Go's signed arithmetic wraps around: the result of an operation is the
    representative of the exact result modulo [2^64] in the signed range. *)
Definition wrap64 (z : Z) : Z := (z + 2 ^ 63) mod 2 ^ 64 - 2 ^ 63.

(** [id + 1] on an [int64]. *)
Definition add64 (a b : Z) : Z := wrap64 (a + b).

(** Unary minus on an [int64]; [- min_int64] is [min_int64]. *)
Definition neg64 (a : Z) : Z := wrap64 (- a).

End Int64.
Export Int64.

(** ** The calls into package [time]

    An instant is kept as its exact number of nanoseconds since the Unix
    epoch.  [Time.Add] is exact on instants: it works on seconds and
    nanoseconds separately, and the seconds of a clock reading moved by a
    [Duration] (at most 292 years) are far from the ends of [int64], where
    it would saturate.  [Time.UnixNano] computes
    [seconds * 1e9 + nanoseconds] in [int64], so it wraps around for an
    instant outside the years 1678 to 2262. *)

Module Time.

Abbreviation Time := Z (only parsing).

(** A [time.Duration] is an [int64] count of nanoseconds. *)
Abbreviation Duration := Z (only parsing).

Definition Add (t : Time) (d : Duration) : Time := t + d.

Definition UnixNano (t : Time) : Z := wrap64 t.

End Time.

(** ** The Generator *)

(** [type Serial int64]. *)
Abbreviation Serial := Z (only parsing).

(** [type Generator struct].  The two mutexes only order the calls of
    different goroutines and hold no data; every function below is the body
    of a method between its [Lock] and [Unlock].  [seen] is a Go map with
    empty values; [None] is the nil map of a [Generator] that was not made
    by [NewGenerator]. *)
Record Generator : Type := mkGenerator {
  lastSerial : Serial;
  seen : option (gmap Z unit)
}.

(** [NewGenerator]: [&Generator{}] and then [gen.seen = make(...)]. *)
Definition NewGenerator : Generator :=
  {| lastSerial := 0; seen := Some ∅ |}.

(** [_, ok := g.seen[x]]; reading a nil map finds nothing. *)
Definition Seen (g : Generator) (x : Serial) : bool :=
  match seen g with
  | Some m => match m !! x with Some _ => true | None => false end
  | None => false
  end.

(** [g.seen[x] = struct{}{}]; assignment to an entry of a nil map panics,
    which is [None] here. *)
Definition SetSeen (g : Generator) (x : Serial) : option Generator :=
  match seen g with
  | Some m => Some {| lastSerial := lastSerial g; seen := Some (<[x := tt]> m) |}
  | None => None
  end.

(** [limit := time.Now().Add(-agelimit).UnixNano()]. *)
Definition ExpireSeen_limit (now : Time.Time) (agelimit : Time.Duration) : Z :=
  Time.UnixNano (Time.Add now (neg64 agelimit)).

(** The body of the [for tok := range g.seen] loop, on the map being
    mutated. *)
Definition ExpireSeen_body (limit : Z) (tok : Z) (_ : unit)
    (m : gmap Z unit) : gmap Z unit :=
  if tok <? limit then delete tok m else m.

(** The loop visits the entries of the map and deletes from that same map.
    The only key it deletes is the one it is visiting, so every entry
    present at the start is visited once. *)
Definition ExpireSeen_loop (limit : Z) (m : gmap Z unit) : gmap Z unit :=
  map_fold (ExpireSeen_body limit) m m.

(** [ExpireSeen]; ranging over a nil map does nothing. *)
Definition ExpireSeen (now : Time.Time) (agelimit : Time.Duration)
    (g : Generator) : Generator :=
  let limit := ExpireSeen_limit now agelimit in
  {| lastSerial := lastSerial g;
     seen := match seen g with
             | Some m => Some (ExpireSeen_loop limit m)
             | None => None
             end |}.

(** [for id <= g.lastSerial { id = id + 1 }], with a bound on the number of
    tests of the condition; [None] when the bound is reached before the loop
    exits. *)
Fixpoint Generate_loop (fuel : nat) (id last : Serial) : option Serial :=
  match fuel with
  | O => None
  | S fuel' =>
      if id <=? last then Generate_loop fuel' (add64 id 1) last
      else Some id
  end.

(** [Generate]: the returned serial and the generator after the call. *)
Definition Generate (fuel : nat) (now : Time.Time) (g : Generator)
    : option (Serial * Generator) :=
  let id := Time.UnixNano now in
  match Generate_loop fuel id (lastSerial g) with
  | Some id' => Some (id', {| lastSerial := id'; seen := seen g |})
  | None => None
  end.

(** ** Instances behind pointers *)

Module Heap.

(** A [*Generator]. *)
Abbreviation loc := nat (only parsing).

Abbreviation store := (gmap nat Generator) (only parsing).

(** What a call can end in: a result, a run-time panic (a pointer that
    holds no instance, an assignment into a nil map), or the bound on the
    loop of [Generate] reached. *)
Inductive result (A : Type) : Type :=
| Ok (a : A)
| Panic
| Timeout.
Arguments Ok {A} a.
Arguments Panic {A}.
Arguments Timeout {A}.

Inductive call : Type :=
| CNewGenerator
| CGenerate (p : loc) (now : Time.Time)
| CSetSeen (p : loc) (x : Serial)
| CSeen (p : loc) (x : Serial)
| CExpireSeen (p : loc) (now : Time.Time) (agelimit : Time.Duration).

Inductive value : Type :=
| VPtr (p : loc)
| VSerial (id : Serial)
| VBool (b : bool)
| VUnit.

(** One call on the store.  [now] is what [time.Now()] gives inside the
    call. *)
Definition exec (fuel : nat) (c : call) (σ : store) : result (value * store) :=
  match c with
  | CNewGenerator =>
      let p := fresh (dom σ) in
      Ok (VPtr p, <[p := NewGenerator]> σ)
  | CGenerate p now =>
      match σ !! p with
      | None => Panic
      | Some g =>
          match Generate fuel now g with
          | Some (id, g') => Ok (VSerial id, <[p := g']> σ)
          | None => Timeout
          end
      end
  | CSetSeen p x =>
      match σ !! p with
      | None => Panic
      | Some g =>
          match SetSeen g x with
          | Some g' => Ok (VUnit, <[p := g']> σ)
          | None => Panic
          end
      end
  | CSeen p x =>
      match σ !! p with
      | None => Panic
      | Some g => Ok (VBool (Seen g x), σ)
      end
  | CExpireSeen p now agelimit =>
      match σ !! p with
      | None => Panic
      | Some g => Ok (VUnit, <[p := ExpireSeen now agelimit g]> σ)
      end
  end.

(** A sequence of calls, each completing before the next begins. *)
Fixpoint run (fuel : nat) (cs : list call) (σ : store)
    : result (list value * store) :=
  match cs with
  | [] => Ok ([], σ)
  | c :: cs' =>
      match exec fuel c σ with
      | Ok (v, σ') =>
          match run fuel cs' σ' with
          | Ok (vs, σ'') => Ok (v :: vs, σ'')
          | Panic => Panic
          | Timeout => Timeout
          end
      | Panic => Panic
      | Timeout => Timeout
      end
  end.

(** The serials that the calls [Generate] on [p] returned, in order. *)
Fixpoint issued (p : loc) (cs : list call) (vs : list value) : list Serial :=
  match cs, vs with
  | CGenerate q _ :: cs', VSerial id :: vs' =>
      if decide (q = p) then id :: issued p cs' vs' else issued p cs' vs'
  | _ :: cs', _ :: vs' => issued p cs' vs'
  | _, _ => []
  end.

(** A call of [ExpireSeen] on [p] whose cutoff is above [x]: such a call
    takes [x] out of the history of [p]. *)
Definition expires (p : loc) (x : Serial) (c : call) : Prop :=
  match c with
  | CExpireSeen q now agelimit => q = p /\ x < ExpireSeen_limit now agelimit
  | _ => False
  end.

(** In the calls [cs], some [SetSeen(x)] on [p] is followed by no
    [ExpireSeen] on [p] that takes [x] out. *)
Definition marked (p : loc) (x : Serial) (cs : list call) : Prop :=
  exists pre post,
    cs = pre ++ CSetSeen p x :: post
    /\ Forall (fun c => ~ expires p x c) post.

End Heap.

(** [SetSeen(x)] called [n] times in a row. *)
Fixpoint SetSeen_times (n : nat) (x : Serial) (g : Generator) : option Generator :=
  match n with
  | O => Some g
  | S n' =>
      match SetSeen g x with
      | Some g' => SetSeen_times n' x g'
      | None => None
      end
  end.

(** ** Sample inputs *)

Module Samples.

Import Heap.

(** A ratchet that is ahead of the clock. *)
Definition g_ahead : Generator := {| lastSerial := 102; seen := Some ∅ |}.

(** A ratchet at the top of the range. *)
Definition g_top : Generator := {| lastSerial := max_int64; seen := Some ∅ |}.

(** One instance, three calls of [Generate] with a clock that stands still
    and then steps back. *)
Definition three_calls : list call :=
  [CNewGenerator; CGenerate 0%nat 5; CGenerate 0%nat 5; CGenerate 0%nat 3].

Definition three_values : list value :=
  [VPtr 0%nat; VSerial 5; VSerial 6; VSerial 7].

Definition three_store : gmap nat Generator :=
  {[ 0%nat := {| lastSerial := 7; seen := Some ∅ |} ]}.

(** A history that holds the serial [0]. *)
Definition g_zero_seen : Generator :=
  {| lastSerial := 0; seen := Some {[ 0 := tt ]} |}.

(** A clock reading in November 2023. *)
Definition now_2023 : Z := 1700000000000000000.

(** The most negative [time.Duration]. *)
Definition age_min : Z := min_int64.

(** One instance: [6] is marked and survives two calls of [ExpireSeen],
    [3] is marked and expired by the second. *)
Definition mark_and_expire : list call :=
  [CNewGenerator; CSetSeen 0%nat 6; CExpireSeen 0%nat 10 4;
   CSetSeen 0%nat 3; CExpireSeen 0%nat 10 5].

Definition mark_and_expire_values : list value :=
  [VPtr 0%nat; VUnit; VUnit; VUnit; VUnit].

Definition mark_and_expire_store : gmap nat Generator :=
  {[ 0%nat := {| lastSerial := 0; seen := Some {[ 6 := tt ]} |} ]}.

(** Two instances, the first with [6] marked. *)
Definition two_instances : gmap nat Generator :=
  {[ 0%nat := {| lastSerial := 0; seen := Some {[ 6 := tt ]} |};
     1%nat := NewGenerator ]}.

(** The same two instances after [SetSeen(7)] on the first. *)
Definition two_instances_marked : gmap nat Generator :=
  {[ 0%nat := {| lastSerial := 0; seen := Some {[ 6 := tt; 7 := tt ]} |};
     1%nat := NewGenerator ]}.

(** One instance after a call of [Generate]. *)
Definition used_calls : list call := [CNewGenerator; CGenerate 0%nat 5].

Definition used_values : list value := [VPtr 0%nat; VSerial 5].

Definition used_store : gmap nat Generator :=
  {[ 0%nat := {| lastSerial := 5; seen := Some ∅ |} ]}.

(** One new instance. *)
Definition new_store : gmap nat Generator := {[ 0%nat := NewGenerator ]}.

(** One instance whose history holds [0]. *)
Definition zero_seen_store : gmap nat Generator := {[ 0%nat := g_zero_seen ]}.

End Samples.

(** ** What the callers look at *)

(** [len(g.seen)]; the length of a nil map is zero. *)
Definition len_seen (g : Generator) : nat :=
  match seen g with
  | Some m => size m
  | None => 0%nat
  end.

(** The history holds no value above the ratchet.  This is so when the only
    values marked are serials that the generator has issued. *)
Definition history_below_ratchet (g : Generator) : Prop :=
  forall x : Z, Seen g x = true -> x <= lastSerial g.

(** ** The earlier revision: one generator for the process

    The earlier revision of [serial.go] keeps the ratchet and the history in
    two package variables, fills the map in [init], and has the four
    operations as package functions. *)

Module Global.

(** The package variables [ratchet] and [history], without their locks. *)
Record state : Type := mkState {
  ratchet_lastSerial : Serial;
  history_seen : option (gmap Z unit)
}.

(** The variables before [init] runs: zero values, a nil map. *)
Definition zero : state :=
  {| ratchet_lastSerial := 0; history_seen := None |}.

(** [func init()]: [history.seen = make(map[Serial]struct{})]. *)
Definition init (s : state) : state :=
  {| ratchet_lastSerial := ratchet_lastSerial s; history_seen := Some ∅ |}.

(** [_, ok := history.seen[x]]. *)
Definition Seen (s : state) (x : Serial) : bool :=
  match history_seen s with
  | Some m => match m !! x with Some _ => true | None => false end
  | None => false
  end.

(** [history.seen[x] = struct{}{}]. *)
Definition SetSeen (s : state) (x : Serial) : option state :=
  match history_seen s with
  | Some m =>
      Some {| ratchet_lastSerial := ratchet_lastSerial s;
              history_seen := Some (<[x := tt]> m) |}
  | None => None
  end.

(** [ExpireSeen]: the same cutoff and the same loop, on [history.seen]. *)
Definition ExpireSeen (now : Time.Time) (agelimit : Time.Duration)
    (s : state) : state :=
  let limit := ExpireSeen_limit now agelimit in
  {| ratchet_lastSerial := ratchet_lastSerial s;
     history_seen := match history_seen s with
                     | Some m => Some (ExpireSeen_loop limit m)
                     | None => None
                     end |}.

(** [Generate]: the same loop, on [ratchet.lastSerial]. *)
Definition Generate (fuel : nat) (now : Time.Time) (s : state)
    : option (Serial * state) :=
  let id := Time.UnixNano now in
  match Generate_loop fuel id (ratchet_lastSerial s) with
  | Some id' =>
      Some (id', {| ratchet_lastSerial := id'; history_seen := history_seen s |})
  | None => None
  end.

(** The calls a client of the earlier revision can make. *)
Inductive call : Type :=
| GGenerate (now : Time.Time)
| GSetSeen (x : Serial)
| GSeen (x : Serial)
| GExpireSeen (now : Time.Time) (agelimit : Time.Duration).

Definition exec (fuel : nat) (c : call) (s : state)
    : Heap.result (Heap.value * state) :=
  match c with
  | GGenerate now =>
      match Generate fuel now s with
      | Some (id, s') => Heap.Ok (Heap.VSerial id, s')
      | None => Heap.Timeout
      end
  | GSetSeen x =>
      match SetSeen s x with
      | Some s' => Heap.Ok (Heap.VUnit, s')
      | None => Heap.Panic
      end
  | GSeen x => Heap.Ok (Heap.VBool (Seen s x), s)
  | GExpireSeen now agelimit => Heap.Ok (Heap.VUnit, ExpireSeen now agelimit s)
  end.

Fixpoint run (fuel : nat) (cs : list call) (s : state)
    : Heap.result (list Heap.value * state) :=
  match cs with
  | [] => Heap.Ok ([], s)
  | c :: cs' =>
      match exec fuel c s with
      | Heap.Ok (v, s') =>
          match run fuel cs' s' with
          | Heap.Ok (vs, s'') => Heap.Ok (v :: vs, s'')
          | Heap.Panic => Heap.Panic
          | Heap.Timeout => Heap.Timeout
          end
      | Heap.Panic => Heap.Panic
      | Heap.Timeout => Heap.Timeout
      end
  end.

(** The same call in the later revision, as a method on the instance at
    [p]. *)
Definition on (p : nat) (c : call) : Heap.call :=
  match c with
  | GGenerate now => Heap.CGenerate p now
  | GSetSeen x => Heap.CSetSeen p x
  | GSeen x => Heap.CSeen p x
  | GExpireSeen now agelimit => Heap.CExpireSeen p now agelimit
  end.

(** The package variables hold what the fields of [g] hold. *)
Definition same (s : state) (g : Generator) : Prop :=
  ratchet_lastSerial s = lastSerial g /\ history_seen s = seen g.

(** A run of the earlier revision and a run of the later one on the
    instance at [p] end alike: the same results and the same data, or the
    same failure. *)
Definition agree (p : nat)
    (r1 : Heap.result (list Heap.value * state))
    (r2 : Heap.result (list Heap.value * gmap nat Generator)) : Prop :=
  match r1, r2 with
  | Heap.Ok (vs, s), Heap.Ok (vs', σ) =>
      vs = vs' /\ exists g, σ !! p = Some g /\ same s g
  | Heap.Panic, Heap.Panic => True
  | Heap.Timeout, Heap.Timeout => True
  | _, _ => False
  end.

End Global.

(** ** The tests of the package

    [serial_test.go] has one generator, [var gen = NewGenerator()], that its
    three tests share.  A test is a function on that generator, on the
    number of readings of the clock so far, and on what the test has told
    its [*testing.T]. *)

Module Tests.

Import Heap.

(** What a test tells its [*testing.T]. *)
Inductive report : Type :=
| Error (msg : string)
| Errorf (format : string) (args : list Z)
| Skip (msg : string).

(** [t.Error] and [t.Errorf] make the test fail; [t.Skip] does not. *)
Definition is_failure (r : report) : bool :=
  match r with
  | Error _ | Errorf _ _ => true
  | Skip _ => false
  end.

Definition Failed (log : list report) : bool := existsb is_failure log.

Record world : Type := mkWorld {
  gen : Generator;
  ticks : nat;
  log : list report
}.

Definition tell (r : report) (w : world) : world :=
  {| gen := gen w; ticks := ticks w; log := log w ++ [r] |}.

Section With_clock.

(** A bound on the loop of [Generate], and what [time.Now()] gives at its
    first, second, ... call. *)
Variable fuel : nat.
Variable clock : nat -> Time.Time.

(** [gen.Generate()]. *)
Definition gen_Generate (w : world) : result (Serial * world) :=
  match Generate fuel (clock (ticks w)) (gen w) with
  | Some (id, g') => Ok (id, {| gen := g'; ticks := S (ticks w); log := log w |})
  | None => Timeout
  end.

(** [gen.SetSeen(x)]. *)
Definition gen_SetSeen (x : Serial) (w : world) : result world :=
  match SetSeen (gen w) x with
  | Some g' => Ok {| gen := g'; ticks := ticks w; log := log w |}
  | None => Panic
  end.

(** [gen.ExpireSeen(agelimit)]. *)
Definition gen_ExpireSeen (agelimit : Time.Duration) (w : world) : world :=
  {| gen := ExpireSeen (clock (ticks w)) agelimit (gen w);
     ticks := S (ticks w);
     log := log w |}.

(** The body of the loop of [TestSerial], [n] times. *)
Fixpoint TestSerial_loop (n : nat) (w : world) : result world :=
  match n with
  | O => Ok w
  | S n' =>
      match gen_Generate w with
      | Ok (n1, w1) =>
          match gen_Generate w1 with
          | Ok (n2, w2) =>
              TestSerial_loop n'
                (if n1 =? n2
                 then tell (Error "Got the same value twice!") w2
                 else w2)
          | Panic => Panic
          | Timeout => Timeout
          end
      | Panic => Panic
      | Timeout => Timeout
      end
  end.

(** [func TestSerial]: [for i := 0; i < 100; i++]. *)
Definition TestSerial (w : world) : result world := TestSerial_loop 100 w.

(** [func TestOneTime]. *)
Definition TestOneTime (w : world) : result world :=
  match gen_Generate w with
  | Ok (n1, w1) =>
      match gen_SetSeen n1 w1 with
      | Ok w2 =>
          let w3 :=
            if negb (Seen (gen w2) n1)
            then tell (Error "Flagged value as seen, got 'not seen'") w2
            else w2 in
          match gen_Generate w3 with
          | Ok (n2, w4) =>
              let w5 :=
                if Seen (gen w4) n2
                then tell (Error "Got 'seen' for unflagged value") w4
                else w4 in
              let w6 := gen_ExpireSeen 0 w5 in
              Ok (if Seen (gen w6) n1
                  then tell (Error "Emptied history but value was still 'seen'") w6
                  else w6)
          | Panic => Panic
          | Timeout => Timeout
          end
      | Panic => Panic
      | Timeout => Timeout
      end
  | Panic => Panic
  | Timeout => Timeout
  end.

(** The first loop of [TestGC], [n] times: issue a serial, append it to
    [vals], mark it.  ([time.Sleep] only lets the clock move on.) *)
Fixpoint TestGC_fill (n : nat) (vals : list Serial) (w : world)
    : result (list Serial * world) :=
  match n with
  | O => Ok (vals, w)
  | S n' =>
      match gen_Generate w with
      | Ok (v, w1) =>
          match gen_SetSeen v w1 with
          | Ok w2 => TestGC_fill n' (vals ++ [v]) w2
          | Panic => Panic
          | Timeout => Timeout
          end
      | Panic => Panic
      | Timeout => Timeout
      end
  end.

(** The second loop of [TestGC]: [count] goes up for every value of [vals]
    that is seen. *)
Definition TestGC_count (g : Generator) (vals : list Serial) : Z :=
  fold_left (fun count v => if Seen g v then count + 1 else count) vals 0.

(** [time.Millisecond], in nanoseconds. *)
Definition Millisecond : Time.Duration := 1000000.

(** [func TestGC]; [short] is what [testing.Short()] gives.  [vals] starts
    as [make([]Serial, 100)], a hundred zeros, and the loop appends to it. *)
Definition TestGC (short : bool) (w : world) : result world :=
  if short
  then Ok (tell (Skip "skipping extended history test in short mode") w)
  else
    match TestGC_fill 100 (replicate 100 0) w with
    | Ok (vals, w1) =>
        let before := Z.of_nat (len_seen (gen w1)) in
        let w2 :=
          if negb (before =? 100)
          then tell (Errorf "History wrong length, expected 100 got %d"
                       [before]) w1
          else w1 in
        let w3 := gen_ExpireSeen (Millisecond * 5050) w2 in
        let after := Z.of_nat (len_seen (gen w3)) in
        let w4 :=
          if negb (after =? 50)
          then tell (Errorf
                       "History wrong length after expire, expected 50 got %d"
                       [after]) w3
          else w3 in
        let count := TestGC_count (gen w4) vals in
        Ok (if negb (count =? Z.of_nat (len_seen (gen w4)))
            then tell (Errorf
                         "History had wrong number of values expected %d got %d"
                         [count; after]) w4
            else w4)
    | Panic => Panic
    | Timeout => Timeout
    end.

End With_clock.

End Tests.

(** ** More sample inputs *)

Module Cases.

Import Heap.

(** A [Generator] that was not made by [NewGenerator]: the map is nil. *)
Definition g_nil : Generator := {| lastSerial := 0; seen := None |}.

Definition nil_store : gmap nat Generator := {[ 0%nat := g_nil ]}.

(** A generator that has issued [7] and has [5] and [7] marked. *)
Definition g_used : Generator :=
  {| lastSerial := 7; seen := Some {[ 5 := tt; 7 := tt ]} |}.

Definition g_used_store : gmap nat Generator := {[ 0%nat := g_used ]}.

(** One instance before and after three calls of [Generate] with the clock
    at [5], [5] and [3]. *)
Definition burst_calls : list call :=
  [CGenerate 0%nat 5; CGenerate 0%nat 5; CGenerate 0%nat 3].

Definition burst_values : list value := [VSerial 5; VSerial 6; VSerial 7].

Definition burst_store : gmap nat Generator :=
  {[ 0%nat := {| lastSerial := 7; seen := Some ∅ |} ]}.

(** The shared generator of the tests at the start, with a clock that reads
    [5] at every call and with one that moves on by [10] from call to call. *)
Definition w_start : Tests.world :=
  {| Tests.gen := NewGenerator; Tests.ticks := 0; Tests.log := [] |}.

Definition clock_still : nat -> Z := fun _ => 5.

Definition clock_moving : nat -> Z := fun k => 10 + 10 * Z.of_nat k.

(** The shared generator after [TestOneTime] with the moving clock and with
    the clock that stands still. *)
Definition w_one_time_moving : Tests.world :=
  {| Tests.gen := {| lastSerial := 20; seen := Some ∅ |};
     Tests.ticks := 3;
     Tests.log := [] |}.

(** A clock that moves on by a tenth of a second from call to call, as the
    sleep in [TestGC] makes it, and the shared generator after [TestGC] with
    that clock. *)
Definition clock_tenths : nat -> Z :=
  fun k => 1700000000000000000 + 100000000 * Z.of_nat k.

Definition w_gc_tenths : Tests.world :=
  match Tests.TestGC 5 clock_tenths false w_start with
  | Ok w' => w'
  | _ => w_start
  end.

Definition w_one_time_still : Tests.world :=
  {| Tests.gen := {| lastSerial := 6; seen := Some {[ 5 := tt ]} |};
     Tests.ticks := 3;
     Tests.log :=
       [Tests.Error "Emptied history but value was still 'seen'"] |}.

End Cases.

(** * Properties *)

(** ** Machine arithmetic *)

Section Int64_facts.

Lemma wrap64_in_range (z : Z) : in_range (wrap64 z).
Proof.
  unfold in_range, wrap64, min_int64, max_int64.
  pose proof (Z.mod_pos_bound (z + 2 ^ 63) (2 ^ 64)). lia.
Qed.

Lemma wrap64_id (z : Z) : in_range z -> wrap64 z = z.
Proof.
  unfold in_range, wrap64, min_int64, max_int64. intros Hz.
  rewrite Z.mod_small; lia.
Qed.

(** Wrapping does not see multiples of [2^64]. *)
Lemma wrap64_shift (z k : Z) : wrap64 (z + k * 2 ^ 64) = wrap64 z.
Proof.
  unfold wrap64.
  replace (z + k * 2 ^ 64 + 2 ^ 63) with (z + 2 ^ 63 + k * 2 ^ 64) by lia.
  now rewrite Z.mod_add by lia.
Qed.

Lemma wrap64_wrap64_add (a b : Z) : wrap64 (a + wrap64 b) = wrap64 (a + b).
Proof.
  unfold wrap64 at 2.
  rewrite (Z.mod_eq (b + 2 ^ 63) (2 ^ 64)) by lia.
  replace (a + (b + 2 ^ 63 - 2 ^ 64 * ((b + 2 ^ 63) / 2 ^ 64) - 2 ^ 63))
    with (a + b + (- ((b + 2 ^ 63) / 2 ^ 64)) * 2 ^ 64) by lia.
  apply wrap64_shift.
Qed.

Lemma add64_succ (id : Z) :
  in_range id -> id < max_int64 -> add64 id 1 = id + 1.
Proof.
  intros [Hlo Hhi] Hlt. unfold add64. apply wrap64_id.
  unfold in_range in *. unfold min_int64, max_int64 in *. lia.
Qed.

Lemma add64_in_range (a b : Z) : in_range (add64 a b).
Proof. apply wrap64_in_range. Qed.

End Int64_facts.

(** ** The loop of [Generate] *)

Section Generate_loop_facts.

(** With the ratchet at the top of the range the condition of the loop holds
    for every candidate, so no bound is enough. *)
Lemma Generate_loop_stuck (fuel : nat) (id last : Z) :
  in_range id -> max_int64 <= last -> Generate_loop fuel id last = None.
Proof.
  revert id. induction fuel as [|fuel IH]; intros id Hid Hlast; [reflexivity|].
  simpl. destruct (Z.leb_spec id last) as [_|Hgt].
  - apply IH; [apply add64_in_range | assumption].
  - destruct Hid as [_ Hhi]. lia.
Qed.

(** Whatever the loop returns is the larger of the candidate and the
    successor of the ratchet. *)
Lemma Generate_loop_sound (fuel : nat) (id last r : Z) :
  in_range id ->
  Generate_loop fuel id last = Some r ->
  r = Z.max id (last + 1) /\ last < max_int64.
Proof.
  revert id. induction fuel as [|fuel IH]; intros id Hid Hr; [discriminate|].
  simpl in Hr. destruct (Z.leb_spec id last) as [Hle|Hgt].
  - destruct (Z_lt_le_dec last max_int64) as [Hlast|Hlast].
    + rewrite add64_succ in Hr by (destruct Hid; try split; lia).
      apply IH in Hr.
      * destruct Hr as [-> _]. split; [lia | assumption].
      * destruct Hid as [Hlo Hhi]. unfold in_range in *. lia.
    + rewrite Generate_loop_stuck in Hr
        by (try apply add64_in_range; assumption).
      discriminate.
  - injection Hr as <-. destruct Hid as [_ Hhi]. split; lia.
Qed.

(** Below the top of the range the loop exits once the bound exceeds the
    distance it has to cover. *)
Lemma Generate_loop_total (fuel : nat) (id last : Z) :
  in_range id -> last < max_int64 ->
  (Z.to_nat (last + 1 - id) < fuel)%nat ->
  Generate_loop fuel id last = Some (Z.max id (last + 1)).
Proof.
  revert id. induction fuel as [|fuel IH]; intros id Hid Hlast Hfuel; [lia|].
  simpl. destruct (Z.leb_spec id last) as [Hle|Hgt].
  - rewrite add64_succ by (destruct Hid; try split; lia).
    rewrite IH.
    + f_equal. lia.
    + destruct Hid as [Hlo Hhi]. unfold in_range in *. lia.
    + assumption.
    + lia.
  - f_equal. lia.
Qed.

(** One more turn of the loop brings the candidate closer to the ratchet,
    and the distance never falls below [-1], where the loop exits. *)
Lemma Generate_loop_measure (id last : Z) :
  in_range id -> last < max_int64 -> id <= last ->
  last - add64 id 1 < last - id /\ -1 <= last - add64 id 1.
Proof.
  intros Hid Hlast Hle.
  rewrite add64_succ by (destruct Hid; try split; lia). lia.
Qed.

Lemma Generate_sound (fuel : nat) (now : Z) (g g' : Generator) (id : Z) :
  Generate fuel now g = Some (id, g') ->
  id = Z.max (Time.UnixNano now) (lastSerial g + 1)
  /\ lastSerial g < max_int64
  /\ g' = {| lastSerial := id; seen := seen g |}.
Proof.
  unfold Generate. intros H.
  destruct (Generate_loop fuel (Time.UnixNano now) (lastSerial g)) as [r|] eqn:Hr;
    [|discriminate].
  injection H as <- <-.
  apply Generate_loop_sound in Hr; [|apply wrap64_in_range].
  destruct Hr as [-> Hlt]. auto.
Qed.

Lemma Generate_total (fuel : nat) (now : Z) (g : Generator) :
  lastSerial g < max_int64 ->
  (Z.to_nat (lastSerial g + 1 - Time.UnixNano now) < fuel)%nat ->
  Generate fuel now g =
    Some (Z.max (Time.UnixNano now) (lastSerial g + 1),
          {| lastSerial := Z.max (Time.UnixNano now) (lastSerial g + 1);
             seen := seen g |}).
Proof.
  intros Hlast Hfuel. unfold Generate.
  rewrite Generate_loop_total; auto. apply wrap64_in_range.
Qed.

End Generate_loop_facts.

(** ** The history of seen values *)

Section Seen_facts.

Implicit Types (g : Generator) (m : gmap Z unit) (x : Z).

Lemma Seen_Some g m x :
  seen g = Some m -> (Seen g x = true <-> is_Some (m !! x)).
Proof.
  intros Hm. unfold Seen. rewrite Hm. simpl.
  split.
  - destruct (m !! x) as [u|]; [intros _; by exists u | intros [=]].
  - intros [u ->]. reflexivity.
Qed.

Lemma Seen_NewGenerator x : Seen NewGenerator x = false.
Proof. unfold Seen, NewGenerator. simpl. now rewrite lookup_empty. Qed.

Lemma Seen_SetSeen g g' x y :
  SetSeen g x = Some g' ->
  Seen g' y = if decide (x = y) then true else Seen g y.
Proof.
  unfold SetSeen, Seen. destruct (seen g) as [m|]; [|done].
  intros [= <-]. simpl. destruct (decide (x = y)) as [->|Hne].
  - now rewrite lookup_insert_eq.
  - now rewrite lookup_insert_ne.
Qed.

(** The fold of the loop body over the entries of [m], started from any
    map [b]: the keys of [m] below the limit are gone from [b], every other
    key is as in [b]. *)
Lemma ExpireSeen_fold_lookup (limit : Z) (b m : gmap Z unit) x :
  map_fold (ExpireSeen_body limit) b m !! x =
    match m !! x with
    | Some _ => if x <? limit then None else b !! x
    | None => b !! x
    end.
Proof.
  revert x.
  apply (map_fold_weak_ind
           (fun r m' => forall x, r !! x =
              match m' !! x with
              | Some _ => if x <? limit then None else b !! x
              | None => b !! x
              end)).
  - intros x. now rewrite lookup_empty.
  - intros i v m' r Hi IH x. unfold ExpireSeen_body.
    destruct (decide (i = x)) as [->|Hne].
    + rewrite lookup_insert_eq. specialize (IH x). rewrite Hi in IH.
      destruct (x <? limit); [apply lookup_delete_eq | exact IH].
    + rewrite lookup_insert_ne by done.
      destruct (i <? limit); [rewrite lookup_delete_ne by done|]; apply IH.
Qed.

Lemma ExpireSeen_loop_lookup (limit : Z) m x :
  ExpireSeen_loop limit m !! x = if x <? limit then None else m !! x.
Proof.
  unfold ExpireSeen_loop. rewrite ExpireSeen_fold_lookup.
  destruct (m !! x) eqn:Hx; destruct (x <? limit); congruence.
Qed.

(** The loop as a filter on the map: it keeps the entries not below the
    limit. *)
Lemma ExpireSeen_loop_filter (limit : Z) m :
  ExpireSeen_loop limit m = filter (fun kv => ¬ kv.1 < limit) m.
Proof.
  apply map_eq. intros x. apply option_eq. intros [].
  rewrite ExpireSeen_loop_lookup, map_lookup_filter_Some. simpl.
  destruct (Z.ltb_spec x limit) as [Hlt|Hge].
  - split; [done | intros [_ Hn]; contradiction].
  - split; [intros Hx; split; [exact Hx | lia] | intros [Hx _]; exact Hx].
Qed.

Lemma Seen_ExpireSeen g now agelimit x :
  Seen (ExpireSeen now agelimit g) x =
    Seen g x && negb (x <? ExpireSeen_limit now agelimit).
Proof.
  unfold ExpireSeen, Seen. simpl. destruct (seen g) as [m|]; [|reflexivity].
  rewrite ExpireSeen_loop_lookup.
  destruct (x <? ExpireSeen_limit now agelimit); destruct (m !! x); reflexivity.
Qed.

(** The cutoff is the exact difference reduced to 64 bits. *)
Lemma ExpireSeen_limit_wrap (now agelimit : Z) :
  ExpireSeen_limit now agelimit = wrap64 (now - agelimit).
Proof.
  unfold ExpireSeen_limit, Time.UnixNano, Time.Add, neg64.
  rewrite wrap64_wrap64_add. reflexivity.
Qed.

Lemma ExpireSeen_limit_exact (now agelimit : Z) :
  in_range (now - agelimit) -> ExpireSeen_limit now agelimit = now - agelimit.
Proof. intros H. rewrite ExpireSeen_limit_wrap. now apply wrap64_id. Qed.

End Seen_facts.

(** ** Calls on the store *)

Section Heap_facts.

Import Heap.

Implicit Types (σ : gmap nat Generator) (p q : nat) (g : Generator)
  (c : call) (cs : list call) (v : value) (vs : list value).

(** What a completed call did, for each kind of call. *)

Lemma exec_CNewGenerator_inv fuel σ v σ' :
  exec fuel CNewGenerator σ = Ok (v, σ') ->
  σ !! fresh (dom σ) = None
  /\ v = VPtr (fresh (dom σ))
  /\ σ' = <[fresh (dom σ) := NewGenerator]> σ.
Proof.
  simpl. intros [= <- <-]. split; [|done].
  apply not_elem_of_dom, is_fresh.
Qed.

Lemma exec_CGenerate_inv fuel p now σ v σ' :
  exec fuel (CGenerate p now) σ = Ok (v, σ') ->
  exists g id,
    σ !! p = Some g
    /\ id = Z.max (Time.UnixNano now) (lastSerial g + 1)
    /\ v = VSerial id
    /\ σ' = <[p := {| lastSerial := id; seen := seen g |}]> σ.
Proof.
  simpl. destruct (σ !! p) as [g|]; [|done].
  destruct (Generate fuel now g) as [[id g']|] eqn:Hg; [|done].
  intros [= <- <-]. apply Generate_sound in Hg as (Hid & _ & ->).
  exists g, id. done.
Qed.

Lemma exec_CSetSeen_inv fuel p x σ v σ' :
  exec fuel (CSetSeen p x) σ = Ok (v, σ') ->
  exists g m,
    σ !! p = Some g
    /\ seen g = Some m
    /\ v = VUnit
    /\ σ' = <[p := {| lastSerial := lastSerial g;
                      seen := Some (<[x := tt]> m) |}]> σ.
Proof.
  simpl. destruct (σ !! p) as [g|]; [|done]. unfold SetSeen.
  destruct (seen g) as [m|] eqn:Hm; [|done].
  intros [= <- <-]. exists g, m. done.
Qed.

Lemma exec_CSeen_inv fuel p x σ v σ' :
  exec fuel (CSeen p x) σ = Ok (v, σ') ->
  exists g, σ !! p = Some g /\ v = VBool (Seen g x) /\ σ' = σ.
Proof.
  simpl. destruct (σ !! p) as [g|]; [|done].
  intros [= <- <-]. exists g. done.
Qed.

Lemma exec_CExpireSeen_inv fuel p now agelimit σ v σ' :
  exec fuel (CExpireSeen p now agelimit) σ = Ok (v, σ') ->
  exists g,
    σ !! p = Some g /\ v = VUnit
    /\ σ' = <[p := ExpireSeen now agelimit g]> σ.
Proof.
  simpl. destruct (σ !! p) as [g|]; [|done].
  intros [= <- <-]. exists g. done.
Qed.

Lemma run_cons_inv fuel c cs σ vs σ' :
  run fuel (c :: cs) σ = Ok (vs, σ') ->
  exists v σ1 vs',
    exec fuel c σ = Ok (v, σ1)
    /\ run fuel cs σ1 = Ok (vs', σ')
    /\ vs = v :: vs'.
Proof.
  simpl. destruct (exec fuel c σ) as [[v σ1]| |]; [|done..].
  destruct (run fuel cs σ1) as [[vs' σ2]| |] eqn:Hrun; [|done..].
  intros [= <- <-]. exists v, σ1, vs'. done.
Qed.

Lemma run_app fuel cs1 cs2 σ :
  run fuel (cs1 ++ cs2) σ =
    match run fuel cs1 σ with
    | Ok (vs1, σ1) =>
        match run fuel cs2 σ1 with
        | Ok (vs2, σ2) => Ok (vs1 ++ vs2, σ2)
        | Panic => Panic
        | Timeout => Timeout
        end
    | Panic => Panic
    | Timeout => Timeout
    end.
Proof.
  revert σ. induction cs1 as [|c cs1 IH]; intros σ; simpl.
  - destruct (run fuel cs2 σ) as [[vs2 σ2]| |]; reflexivity.
  - destruct (exec fuel c σ) as [[v σ1]| |]; [|done..].
    rewrite IH. destruct (run fuel cs1 σ1) as [[vs1 σ2]| |]; [|done..].
    destruct (run fuel cs2 σ2) as [[vs2 σ3]| |]; reflexivity.
Qed.

Lemma run_snoc_inv fuel cs c σ vs σ' :
  run fuel (cs ++ [c]) σ = Ok (vs, σ') ->
  exists vs1 σ1 v,
    run fuel cs σ = Ok (vs1, σ1)
    /\ exec fuel c σ1 = Ok (v, σ')
    /\ vs = vs1 ++ [v].
Proof.
  rewrite run_app. destruct (run fuel cs σ) as [[vs1 σ1]| |]; [|done..].
  simpl. destruct (exec fuel c σ1) as [[v σ2]| |] eqn:Hexec; [|done..].
  intros [= <- <-]. exists vs1, σ1, v. done.
Qed.

Lemma run_length fuel cs σ vs σ' :
  run fuel cs σ = Ok (vs, σ') -> length vs = length cs.
Proof.
  revert σ vs. induction cs as [|c cs IH]; intros σ vs.
  - simpl. intros [= <- <-]. reflexivity.
  - intros (v & σ1 & vs' & _ & Hrun & ->)%run_cons_inv.
    simpl. f_equal. eauto.
Qed.

(** A call never lowers the ratchet of an instance, and [Generate] on it
    returns a serial above the ratchet and leaves the ratchet there. *)
Lemma exec_ratchet fuel c σ v σ' p g :
  exec fuel c σ = Ok (v, σ') ->
  σ !! p = Some g ->
  exists g',
    σ' !! p = Some g'
    /\ lastSerial g <= lastSerial g'
    /\ (forall now, c = CGenerate p now ->
         exists id, v = VSerial id /\ lastSerial g < id /\ lastSerial g' = id).
Proof.
  intros Hexec Hp.
  assert (Hother : forall q g1, q <> p ->
    exists g', <[q := g1]> σ !! p = Some g'
      /\ lastSerial g <= lastSerial g').
  { intros q g1 Hne. exists g. rewrite lookup_insert_ne by done.
    split; [done | lia]. }
  destruct c as [|q now|q x|q x|q now agelimit].
  - apply exec_CNewGenerator_inv in Hexec as (Hfresh & -> & ->).
    destruct (Hother (fresh (dom σ)) NewGenerator) as (g' & ? & ?);
      [congruence|].
    exists g'. split; [done|]. split; [done|]. intros ? [=].
  - apply exec_CGenerate_inv in Hexec as (g0 & id & Hq & Hid & -> & ->).
    destruct (decide (q = p)) as [->|Hne].
    + assert (g0 = g) as -> by congruence.
      rewrite lookup_insert_eq. eexists. split; [done|]. simpl.
      split; [lia|]. intros ? _. exists id. split; [done|]. split; [lia|done].
    + destruct (Hother q {| lastSerial := id; seen := seen g0 |} Hne)
        as (g' & ? & ?).
      exists g'. split; [done|]. split; [done|]. intros ? [=]. congruence.
  - apply exec_CSetSeen_inv in Hexec as (g0 & m & Hq & Hm & -> & ->).
    destruct (decide (q = p)) as [->|Hne].
    + assert (g0 = g) as -> by congruence.
      rewrite lookup_insert_eq. eexists. split; [done|]. simpl.
      split; [lia|]. intros ? [=].
    + edestruct (Hother q) as (g' & ? & ?); [exact Hne|].
      exists g'. split; [done|]. split; [done|]. intros ? [=].
  - apply exec_CSeen_inv in Hexec as (g0 & Hq & -> & ->).
    exists g. split; [done|]. split; [lia|]. intros ? [=].
  - apply exec_CExpireSeen_inv in Hexec as (g0 & Hq & -> & ->).
    destruct (decide (q = p)) as [->|Hne].
    + assert (g0 = g) as -> by congruence.
      rewrite lookup_insert_eq. eexists. split; [done|]. simpl.
      split; [lia|]. intros ? [=].
    + edestruct (Hother q) as (g' & ? & ?); [exact Hne|].
      exists g'. split; [done|]. split; [done|]. intros ? [=].
Qed.

(** The value returned for a call of [Generate] names the call. *)
Lemma issued_cons_Generate p q now cs id vs :
  issued p (CGenerate q now :: cs) (VSerial id :: vs) =
    if decide (q = p) then id :: issued p cs vs else issued p cs vs.
Proof. reflexivity. Qed.

Lemma issued_cons_other p c cs v vs :
  (forall q now, c <> CGenerate q now) ->
  issued p (c :: cs) (v :: vs) = issued p cs vs.
Proof.
  intros Hc. destruct c as [|q now| | |]; try reflexivity.
  now destruct (Hc q now).
Qed.

(** Every serial that a run issues on an instance is above the ratchet the
    instance had when the run began. *)
Lemma run_issued_above fuel cs σ vs σ' p g :
  run fuel cs σ = Ok (vs, σ') ->
  σ !! p = Some g ->
  Forall (fun id => lastSerial g < id) (issued p cs vs).
Proof.
  revert σ vs g. induction cs as [|c cs IH]; intros σ vs g Hrun Hp.
  - destruct vs; constructor.
  - apply run_cons_inv in Hrun as (v & σ1 & vs' & Hexec & Hrun & ->).
    destruct (exec_ratchet _ _ _ _ _ _ _ Hexec Hp) as (g1 & Hp1 & Hle & Hgen).
    assert (Hrest : Forall (fun id => lastSerial g < id) (issued p cs vs')).
    { eapply Forall_impl; [exact (IH _ _ _ Hrun Hp1)|].
      simpl. intros id ?. lia. }
    destruct c as [|q now|q x|q x|q now agelimit];
      try (rewrite issued_cons_other by (intros ? ? [=]); exact Hrest).
    apply exec_CGenerate_inv in Hexec as (g0 & id & _ & _ & -> & _).
    rewrite issued_cons_Generate. destruct (decide (q = p)) as [->|_];
      [|exact Hrest].
    destruct (Hgen now eq_refl) as (id' & [= <-] & Hlt & _).
    constructor; assumption.
Qed.

Lemma run_issued_sorted fuel cs σ vs σ' p :
  run fuel cs σ = Ok (vs, σ') ->
  StronglySorted Z.lt (issued p cs vs).
Proof.
  revert σ vs. induction cs as [|c cs IH]; intros σ vs Hrun.
  - destruct vs; constructor.
  - apply run_cons_inv in Hrun as (v & σ1 & vs' & Hexec & Hrun & ->).
    destruct c as [|q now|q x|q x|q now agelimit];
      try (rewrite issued_cons_other by (intros ? ? [=]); eauto).
    pose proof Hexec as Hinv.
    apply exec_CGenerate_inv in Hinv as (g0 & id & Hq & _ & -> & _).
    rewrite issued_cons_Generate. destruct (decide (q = p)) as [->|_];
      [|eauto].
    destruct (exec_ratchet _ _ _ _ _ _ _ Hexec Hq) as (g1 & Hp1 & _ & Hgen).
    destruct (Hgen now eq_refl) as (id' & [= <-] & _ & Hlast).
    apply StronglySorted_cons. split; [|eauto].
    rewrite <- Hlast. exact (run_issued_above _ _ _ _ _ _ _ Hrun Hp1).
Qed.

End Heap_facts.

(** ** Lists in strictly increasing order *)

Section Increasing.

Lemma StronglySorted_lt_lookup (l : list Z) (i j : nat) (a b : Z) :
  StronglySorted Z.lt l -> (i < j)%nat ->
  l !! i = Some a -> l !! j = Some b -> a < b.
Proof.
  intros Hl. revert i j. induction Hl as [|x l Hl IH Hx]; intros i j Hij Hi Hj.
  - now rewrite lookup_nil in Hi.
  - destruct j as [|j]; [lia|]. simpl in Hj. destruct i as [|i].
    + simpl in Hi. injection Hi as ->.
      rewrite Forall_forall in Hx. apply Hx.
      eapply list_elem_of_lookup_2; eassumption.
    + simpl in Hi. apply (IH i j); [lia|assumption..].
Qed.

Lemma StronglySorted_lt_NoDup (l : list Z) : StronglySorted Z.lt l -> NoDup l.
Proof.
  induction 1 as [|x l Hl IH Hx]; [constructor|].
  apply NoDup_cons_2; [|assumption].
  intros Hin. rewrite Forall_forall in Hx. specialize (Hx x Hin). lia.
Qed.

End Increasing.

(** * The generator issues increasing serials *)

Section Generate_claims.

Import Heap.

(** C1. In a sequence of calls on a store of instances, each call completing
    before the next begins, the serials that [Generate] returns on one
    instance are in strictly increasing order: the serial of a call is
    greater than the serial of every earlier call on that instance, and no
    two calls return the same serial.  The other calls of the sequence, on
    this or another instance, do not matter. *)
Theorem Generate_strictly_increasing
    (fuel : nat) (cs : list call) (σ σ' : gmap nat Generator)
    (vs : list value) (p : nat) :
  run fuel cs σ = Ok (vs, σ') ->
  StronglySorted Z.lt (issued p cs vs)
  /\ NoDup (issued p cs vs)
  /\ (forall (i j : nat) (a b : Z),
        (i < j)%nat ->
        issued p cs vs !! i = Some a ->
        issued p cs vs !! j = Some b ->
        a < b).
Proof.
  intros Hrun.
  pose proof (run_issued_sorted _ _ _ _ _ p Hrun) as Hsorted.
  split; [exact Hsorted|]. split.
  - apply StronglySorted_lt_NoDup, Hsorted.
  - intros i j a b. apply StronglySorted_lt_lookup, Hsorted.
Qed.

Lemma Generate_strictly_increasing_witness :
  StronglySorted Z.lt [5; 6; 7]
  /\ NoDup [5; 6; 7]
  /\ (forall (i j : nat) (a b : Z),
        (i < j)%nat ->
        [5; 6; 7] !! i = Some a -> [5; 6; 7] !! j = Some b -> a < b).
Proof.
  apply (Generate_strictly_increasing 10 Samples.three_calls ∅
           Samples.three_store Samples.three_values 0%nat).
  vm_compute. reflexivity.
Defined.

(** C2. [Generate] returns the larger of the clock reading [t] (in
    nanoseconds since the epoch) and the successor of the ratchet [L], and
    leaves the ratchet at the returned value and the history as it was.
    This is the result of every call that returns, and a call returns
    whenever the ratchet is below the largest [int64]. *)
Theorem Generate_returns_max (now : Z) (g : Generator) :
  (forall (fuel : nat) (id : Z) (g' : Generator),
      Generate fuel now g = Some (id, g') ->
      id = Z.max (Time.UnixNano now) (lastSerial g + 1)
      /\ lastSerial g' = id
      /\ seen g' = seen g)
  /\ (lastSerial g < max_int64 ->
      exists fuel0 : nat, forall fuel : nat, (fuel0 <= fuel)%nat ->
        Generate fuel now g =
          Some (Z.max (Time.UnixNano now) (lastSerial g + 1),
                {| lastSerial := Z.max (Time.UnixNano now) (lastSerial g + 1);
                   seen := seen g |}))
  /\ (in_range now -> Time.UnixNano now = now).
Proof.
  split; [|split].
  - intros fuel id g' (-> & _ & ->)%Generate_sound. done.
  - intros Hlast.
    exists (S (Z.to_nat (lastSerial g + 1 - Time.UnixNano now))).
    intros fuel Hfuel. apply Generate_total; [assumption | lia].
  - apply wrap64_id.
Qed.

Lemma Generate_returns_max_witness :
  (103 = Z.max (Time.UnixNano 100) (lastSerial Samples.g_ahead + 1)
   /\ lastSerial {| lastSerial := 103; seen := Some ∅ |} = 103
   /\ seen {| lastSerial := 103; seen := Some ∅ |} = seen Samples.g_ahead)
  /\ (exists fuel0 : nat, forall fuel : nat, (fuel0 <= fuel)%nat ->
        Generate fuel 100 Samples.g_ahead =
          Some (103, {| lastSerial := 103; seen := Some ∅ |}))
  /\ Time.UnixNano 100 = 100.
Proof.
  split; [|split].
  - apply (proj1 (Generate_returns_max 100 Samples.g_ahead) 5%nat).
    vm_compute. reflexivity.
  - apply (proj1 (proj2 (Generate_returns_max 100 Samples.g_ahead))).
    vm_compute. reflexivity.
  - apply (proj2 (proj2 (Generate_returns_max 100 Samples.g_ahead))).
    vm_compute. split; discriminate.
Defined.

(** C4. A serial returned by [Generate] is not below the clock reading taken
    in the call: the ratchet moves the value forward only.  When the serial
    is not the clock reading it is the successor of the ratchet. *)
Theorem Generate_not_before_clock
    (fuel : nat) (now : Z) (g g' : Generator) (id : Z) :
  Generate fuel now g = Some (id, g') ->
  Time.UnixNano now <= id
  /\ (in_range now -> now <= id)
  /\ (id <> Time.UnixNano now -> id = lastSerial g + 1).
Proof.
  intros (-> & _ & _)%Generate_sound. split; [lia|]. split.
  - intros Hnow. unfold Time.UnixNano. rewrite wrap64_id by assumption. lia.
  - lia.
Qed.

Lemma Generate_not_before_clock_witness :
  100 <= 103 /\ (in_range 100 -> 100 <= 103) /\ (103 <> 100 -> 103 = 102 + 1).
Proof.
  apply (Generate_not_before_clock 5 100 Samples.g_ahead
           {| lastSerial := 103; seen := Some ∅ |} 103).
  vm_compute. reflexivity.
Defined.

(** C9. [Generate] returns exactly when the ratchet is below the largest
    [int64].  Below it, every turn of the loop brings the candidate closer
    to the ratchet and a bound on the turns is enough from then on; with the
    ratchet at the largest [int64] the loop does not exit, whatever the
    bound. *)
Theorem Generate_terminates_below_max (now : Z) (g : Generator) :
  ((exists fuel : nat, is_Some (Generate fuel now g)) <->
     lastSerial g < max_int64)
  /\ (lastSerial g < max_int64 ->
      exists fuel0 : nat, forall fuel : nat, (fuel0 <= fuel)%nat ->
        is_Some (Generate fuel now g))
  /\ (lastSerial g < max_int64 ->
      forall id : Z, in_range id -> id <= lastSerial g ->
        lastSerial g - add64 id 1 < lastSerial g - id)
  /\ (lastSerial g = max_int64 ->
      forall fuel : nat, Generate fuel now g = None).
Proof.
  assert (Htotal : lastSerial g < max_int64 ->
    exists fuel0 : nat, forall fuel : nat, (fuel0 <= fuel)%nat ->
      is_Some (Generate fuel now g)).
  { intros Hlast.
    exists (S (Z.to_nat (lastSerial g + 1 - Time.UnixNano now))).
    intros fuel Hfuel. rewrite Generate_total by (assumption || lia). eauto. }
  split; [|split; [exact Htotal|split]].
  - split.
    + intros (fuel & [id g'] & H). now apply Generate_sound in H.
    + intros Hlast. destruct (Htotal Hlast) as (fuel0 & H).
      exists fuel0. apply H. lia.
  - intros Hlast id Hid Hle.
    now apply Generate_loop_measure.
  - intros Hlast fuel. unfold Generate.
    rewrite Generate_loop_stuck; [reflexivity | apply wrap64_in_range | lia].
Qed.

Lemma Generate_terminates_below_max_witness :
  lastSerial Samples.g_ahead < max_int64
  /\ (exists fuel : nat, is_Some (Generate fuel 100 Samples.g_ahead))
  /\ (exists fuel0 : nat, forall fuel : nat, (fuel0 <= fuel)%nat ->
        is_Some (Generate fuel 100 Samples.g_ahead))
  /\ lastSerial Samples.g_ahead - add64 100 1 < lastSerial Samples.g_ahead - 100
  /\ (forall fuel : nat, Generate fuel 100 Samples.g_top = None).
Proof.
  split; [|split; [|split; [|split]]].
  - apply (proj1 (proj1 (Generate_terminates_below_max 100 Samples.g_ahead))).
    exists 5%nat. exists (103, {| lastSerial := 103; seen := Some ∅ |}).
    vm_compute. reflexivity.
  - apply (proj2 (proj1 (Generate_terminates_below_max 100 Samples.g_ahead))).
    vm_compute. reflexivity.
  - apply (proj1 (proj2 (Generate_terminates_below_max 100 Samples.g_ahead))).
    vm_compute. reflexivity.
  - apply (proj1 (proj2 (proj2
             (Generate_terminates_below_max 100 Samples.g_ahead)))).
    + vm_compute. reflexivity.
    + vm_compute. split; discriminate.
    + vm_compute. discriminate.
  - apply (proj2 (proj2 (proj2
             (Generate_terminates_below_max 100 Samples.g_top)))).
    reflexivity.
Defined.

End Generate_claims.

(** * The history of seen values *)

Section Seen_claims.

Import Heap.

Implicit Types (σ : gmap nat Generator) (p q : nat) (g : Generator)
  (c : call) (cs : list call) (v : value) (vs : list value) (x y : Z).

(** An instance stays in the store once it is there. *)
Lemma run_lookup_mono fuel cs σ vs σ' p :
  run fuel cs σ = Ok (vs, σ') -> is_Some (σ !! p) -> is_Some (σ' !! p).
Proof.
  revert σ vs. induction cs as [|c cs IH]; intros σ vs Hrun Hp.
  - simpl in Hrun. injection Hrun as <- <-. exact Hp.
  - apply run_cons_inv in Hrun as (v & σ1 & vs' & Hexec & Hrun & ->).
    destruct Hp as [g Hp].
    destruct (exec_ratchet _ _ _ _ _ _ _ Hexec Hp) as (g1 & Hp1 & _).
    eapply IH; [exact Hrun | eauto].
Qed.

(** A completed [SetSeen] on [p] was on an instance of the store. *)
Lemma run_SetSeen_lookup fuel cs σ vs σ' p x :
  run fuel cs σ = Ok (vs, σ') -> CSetSeen p x ∈ cs -> is_Some (σ' !! p).
Proof.
  revert σ vs. induction cs as [|c cs IH]; intros σ vs Hrun Hin.
  - now apply elem_of_nil in Hin.
  - apply run_cons_inv in Hrun as (v & σ1 & vs' & Hexec & Hrun & ->).
    apply elem_of_cons in Hin as [<-|Hin]; [|eauto].
    apply exec_CSetSeen_inv in Hexec as (g0 & m & _ & _ & _ & ->).
    eapply run_lookup_mono; [exact Hrun|].
    rewrite lookup_insert_eq. eauto.
Qed.

Lemma marked_nil p x : ~ marked p x [].
Proof. intros (pre & post & H & _). now destruct pre. Qed.

Lemma marked_elem_of p x cs : marked p x cs -> CSetSeen p x ∈ cs.
Proof.
  intros (pre & post & -> & _). apply elem_of_app. right. apply elem_of_cons.
  now left.
Qed.

(** What one more call makes of the mark on [x]. *)
Lemma marked_snoc p x cs c :
  marked p x (cs ++ [c]) <->
  c = CSetSeen p x \/ (marked p x cs /\ ~ expires p x c).
Proof.
  split.
  - intros (pre & post & Heq & Hpost).
    destruct post as [|c' post _] using rev_ind.
    + apply app_inj_tail in Heq as [_ ->]. now left.
    + rewrite app_comm_cons, app_assoc in Heq.
      apply app_inj_tail in Heq as [-> ->].
      apply Forall_app in Hpost as [Hpost Hc'].
      right. split.
      * exists pre, post. done.
      * exact (proj1 (Forall_singleton _ _) Hc').
  - intros [->|[(pre & post & -> & Hpost) Hc]].
    + exists cs, []. split; [done | constructor].
    + exists pre, (post ++ [c]). split.
      * now rewrite <- app_assoc.
      * apply Forall_app. split; [done|]. apply Forall_singleton. exact Hc.
Qed.

(** After a run from the empty store every instance has a map, and the
    map holds [x] exactly when [x] is marked by the calls of the run. *)
Lemma run_seen_marked fuel cs vs σ :
  run fuel cs ∅ = Ok (vs, σ) ->
  forall p g, σ !! p = Some g ->
    is_Some (seen g) /\ (forall x, Seen g x = true <-> marked p x cs).
Proof.
  revert vs σ. induction cs as [|c cs IH] using rev_ind; intros vs σ Hrun p g Hp.
  { simpl in Hrun. injection Hrun as <- <-. now rewrite lookup_empty in Hp. }
  apply run_snoc_inv in Hrun as (vs1 & σ1 & v & Hrun & Hexec & ->).
  specialize (IH _ _ Hrun).
  assert (Hkeep : forall g1, σ1 !! p = Some g1 -> seen g = seen g1 ->
            (forall x, c <> CSetSeen p x) -> (forall x, ~ expires p x c) ->
            is_Some (seen g)
            /\ (forall x, Seen g x = true <-> marked p x (cs ++ [c]))).
  { intros g1 Hp1 Hseen Hc He. destruct (IH p g1 Hp1) as [Hm HS].
    rewrite Hseen. split; [exact Hm|]. intros x.
    rewrite marked_snoc, <- HS. unfold Seen. rewrite Hseen.
    specialize (Hc x). specialize (He x). tauto. }
  destruct c as [|q now|q y|q y|q now agelimit].
  - apply exec_CNewGenerator_inv in Hexec as (Hfresh & _ & ->).
    destruct (decide (fresh (dom σ1) = p)) as [Heq|Hne].
    + rewrite Heq in *. rewrite lookup_insert_eq in Hp. injection Hp as <-.
      split; [simpl; eauto|]. intros x. rewrite Seen_NewGenerator.
      split; [done|]. rewrite marked_snoc. intros [[=]|[Hmk _]].
      apply marked_elem_of in Hmk.
      destruct (run_SetSeen_lookup _ _ _ _ _ _ _ Hrun Hmk) as [? ?].
      congruence.
    + rewrite lookup_insert_ne in Hp by done.
      apply (Hkeep g Hp eq_refl); [intros ? [=] | intros ? []].
  - apply exec_CGenerate_inv in Hexec as (g0 & id & Hq & _ & _ & ->).
    destruct (decide (q = p)) as [->|Hne].
    + rewrite lookup_insert_eq in Hp. injection Hp as <-.
      apply (Hkeep g0 Hq eq_refl); [intros ? [=] | intros ? []].
    + rewrite lookup_insert_ne in Hp by done.
      apply (Hkeep g Hp eq_refl); [intros ? [=] | intros ? []].
  - apply exec_CSetSeen_inv in Hexec as (g0 & m & Hq & Hm & _ & ->).
    destruct (decide (q = p)) as [->|Hne].
    + rewrite lookup_insert_eq in Hp. injection Hp as <-.
      split; [simpl; eauto|]. intros x.
      destruct (IH p g0 Hq) as [_ HS].
      rewrite marked_snoc, <- HS. unfold Seen. rewrite Hm. simpl.
      destruct (decide (y = x)) as [->|Hyx].
      * rewrite lookup_insert_eq. split; [now left | done].
      * rewrite lookup_insert_ne by done.
        split; [intros H; right; split; [exact H | intros []]|].
        intros [[=]|[H _]]; [congruence | exact H].
    + rewrite lookup_insert_ne in Hp by done.
      apply (Hkeep g Hp eq_refl); [intros ? [=]; congruence | intros ? []].
  - apply exec_CSeen_inv in Hexec as (g0 & Hq & _ & ->).
    apply (Hkeep g Hp eq_refl); [intros ? [=] | intros ? []].
  - apply exec_CExpireSeen_inv in Hexec as (g0 & Hq & _ & ->).
    destruct (decide (q = p)) as [->|Hne].
    + rewrite lookup_insert_eq in Hp. injection Hp as <-.
      destruct (IH p g0 Hq) as [[m Hm] HS]. split.
      * unfold ExpireSeen. simpl. rewrite Hm. eauto.
      * intros x. rewrite Seen_ExpireSeen, marked_snoc, <- HS.
        rewrite andb_true_iff, negb_true_iff, Z.ltb_ge. simpl.
        split; [intros [H1 H2]; right; split; [exact H1 | lia]|].
        intros [[=]|[H1 H2]]. split; [exact H1 | lia].
    + rewrite lookup_insert_ne in Hp by done.
      apply (Hkeep g Hp eq_refl); [intros ? [=] | intros ? [? _]; congruence].
Qed.

End Seen_claims.

Section Seen_theorems.

Import Heap.

Implicit Types (σ : gmap nat Generator) (p q : nat) (g : Generator)
  (c : call) (cs : list call) (v : value) (vs : list value) (x y : Z).

(** C3, as the code has it.  [ExpireSeen] takes out of the history exactly
    the entries below the cutoff and keeps every other entry.  The cutoff
    is the clock reading minus the age limit reduced to a signed 64-bit
    integer; it is the exact difference whenever that difference is an
    [int64], which is so for every age limit from zero up (also one longer
    than the time since the epoch, where the cutoff is negative) at a clock
    reading from the epoch on. *)
Theorem ExpireSeen_removes_below_cutoff (now agelimit : Z) (g : Generator) :
  ExpireSeen_limit now agelimit = wrap64 (now - agelimit)
  /\ (in_range (now - agelimit) ->
      ExpireSeen_limit now agelimit = now - agelimit)
  /\ (0 <= now -> in_range now -> 0 <= agelimit -> in_range agelimit ->
      ExpireSeen_limit now agelimit = now - agelimit)
  /\ (forall x,
       Seen (ExpireSeen now agelimit g) x = true <->
       Seen g x = true /\ ~ x < ExpireSeen_limit now agelimit)
  /\ (forall m, seen g = Some m ->
       seen (ExpireSeen now agelimit g) =
         Some (filter (fun kv => ¬ kv.1 < ExpireSeen_limit now agelimit) m)).
Proof.
  split; [apply ExpireSeen_limit_wrap|].
  split; [apply ExpireSeen_limit_exact|].
  split; [|split].
  - intros Hnow [_ Hhi] Hage [_ Hahi]. apply ExpireSeen_limit_exact.
    unfold in_range, min_int64, max_int64 in *. lia.
  - intros x. rewrite Seen_ExpireSeen, andb_true_iff, negb_true_iff, Z.ltb_ge.
    split; intros [H1 H2]; (split; [exact H1 | lia]).
  - intros m Hm. unfold ExpireSeen. simpl. rewrite Hm.
    now rewrite ExpireSeen_loop_filter.
Qed.

Lemma ExpireSeen_removes_below_cutoff_witness :
  ExpireSeen_limit 10 4 = 10 - 4
  /\ ExpireSeen_limit 10 20 = 10 - 20
  /\ seen (ExpireSeen 10 4 Samples.g_zero_seen) =
       Some (filter (fun kv => ¬ kv.1 < ExpireSeen_limit 10 4) {[ 0 := tt ]}).
Proof.
  split; [|split].
  - apply (proj1 (proj2 (ExpireSeen_removes_below_cutoff 10 4 NewGenerator))).
    vm_compute. split; discriminate.
  - apply (proj1 (proj2 (proj2
             (ExpireSeen_removes_below_cutoff 10 20 NewGenerator))));
      vm_compute; (discriminate || (split; discriminate)).
  - apply (proj2 (proj2 (proj2 (proj2
             (ExpireSeen_removes_below_cutoff 10 4 Samples.g_zero_seen))))).
    reflexivity.
Defined.

(** C3 as stated fails for an age limit below zero.  The history holds [0],
    the clock reads a day in 2023 and the age limit is the most negative
    duration: the clock reading minus the age limit is above [0], and [0]
    is still in the history after [ExpireSeen]. *)
Lemma ExpireSeen_negative_age_keeps_entry :
  in_range Samples.age_min
  /\ Seen Samples.g_zero_seen 0 = true
  /\ 0 < Samples.now_2023 - Samples.age_min
  /\ Seen (ExpireSeen Samples.now_2023 Samples.age_min Samples.g_zero_seen) 0
     = true.
Proof.
  split; [vm_compute; split; discriminate|].
  split; [vm_compute; reflexivity|].
  split; vm_compute; reflexivity.
Qed.

(** C5. After any sequence of calls that starts with no instance, [Seen(x)]
    on an instance returns true exactly when the sequence has a [SetSeen(x)]
    on that instance after which no [ExpireSeen] on it had its cutoff above
    [x]; with no [SetSeen(x)] on the instance in the sequence it returns
    false.  [x] is any integer, issued by the instance or not. *)
Theorem Seen_iff_marked_and_not_expired
    (fuel : nat) (cs : list call) (vs : list value)
    (σ σ' : gmap nat Generator) (p : nat) (x : Z) (v : value) :
  run fuel cs ∅ = Ok (vs, σ) ->
  exec fuel (CSeen p x) σ = Ok (v, σ') ->
  exists b : bool,
    v = VBool b
    /\ (b = true <-> marked p x cs)
    /\ (CSetSeen p x ∉ cs -> b = false).
Proof.
  intros Hrun (g & Hp & -> & ->)%exec_CSeen_inv.
  destruct (run_seen_marked _ _ _ _ Hrun p g Hp) as [_ HS].
  exists (Seen g x). split; [done|]. split; [apply HS|].
  intros Hnot. destruct (Seen g x) eqn:Hx; [|done].
  destruct Hnot. apply marked_elem_of, HS, Hx.
Qed.

Lemma Seen_iff_marked_and_not_expired_witness :
  exists b : bool,
    VBool true = VBool b
    /\ (b = true <-> marked 0%nat 6 Samples.mark_and_expire)
    /\ (CSetSeen 0%nat 6 ∉ Samples.mark_and_expire -> b = false).
Proof.
  apply (Seen_iff_marked_and_not_expired 10 Samples.mark_and_expire
           Samples.mark_and_expire_values Samples.mark_and_expire_store
           Samples.mark_and_expire_store 0%nat 6 (VBool true));
    vm_compute; reflexivity.
Defined.

(** C6. [SetSeen(x)] on a history that holds [x] changes nothing.  So after
    one [SetSeen(x)], [Seen(x)] is true and any number of further
    [SetSeen(x)] leave the generator as the first one left it; in the store
    the call returns with the store as it was. *)
Theorem SetSeen_idempotent (g : Generator) (x : Z) :
  (Seen g x = true -> SetSeen g x = Some g)
  /\ (forall g1, SetSeen g x = Some g1 ->
       Seen g1 x = true
       /\ SetSeen g1 x = Some g1
       /\ forall n : nat, SetSeen_times n x g1 = Some g1)
  /\ (forall (fuel : nat) σ p,
       σ !! p = Some g -> Seen g x = true ->
       exec fuel (CSetSeen p x) σ = Ok (VUnit, σ)).
Proof.
  assert (Hsame : forall g0, Seen g0 x = true -> SetSeen g0 x = Some g0).
  { intros [last [m|]]; unfold Seen, SetSeen; simpl; [|done].
    destruct (m !! x) as [[]|] eqn:Hx; [|done]. intros _.
    now rewrite insert_id. }
  split; [apply Hsame|]. split.
  - intros g1 Hg1.
    assert (Hseen1 : Seen g1 x = true).
    { rewrite (Seen_SetSeen _ _ _ x Hg1). now destruct (decide (x = x)). }
    split; [exact Hseen1|]. split; [now apply Hsame|].
    intros n. induction n as [|n IH]; [reflexivity|].
    simpl. now rewrite (Hsame g1 Hseen1).
  - intros fuel σ p Hp Hx. simpl. rewrite Hp, (Hsame g Hx).
    now rewrite insert_id.
Qed.

Lemma SetSeen_idempotent_witness :
  SetSeen Samples.g_zero_seen 0 = Some Samples.g_zero_seen
  /\ (Seen Samples.g_zero_seen 0 = true
      /\ SetSeen Samples.g_zero_seen 0 = Some Samples.g_zero_seen
      /\ forall n : nat,
          SetSeen_times n 0 Samples.g_zero_seen = Some Samples.g_zero_seen)
  /\ exec 10 (CSetSeen 0%nat 0) Samples.zero_seen_store
     = Ok (VUnit, Samples.zero_seen_store).
Proof.
  split; [|split].
  - apply (proj1 (SetSeen_idempotent Samples.g_zero_seen 0)).
    vm_compute. reflexivity.
  - apply (proj1 (proj2 (SetSeen_idempotent NewGenerator 0))).
    vm_compute. reflexivity.
  - apply (proj2 (proj2 (SetSeen_idempotent Samples.g_zero_seen 0))).
    + vm_compute. reflexivity.
    + vm_compute. reflexivity.
Defined.

End Seen_theorems.

(** * Construction and the reach of a call *)

Section Instance_claims.

Import Heap.

Implicit Types (σ : gmap nat Generator) (p q : nat) (g : Generator)
  (c : call) (cs : list call) (v : value) (vs : list value) (x y : Z).

(** Any number of calls of [NewGenerator] return pointers that differ from
    each other and from every instance there was, each to a new generator,
    and leave the instances there were as they were. *)
Lemma run_NewGenerator_many fuel (n : nat) σ :
  exists (ps : list nat) σ',
    run fuel (replicate n CNewGenerator) σ = Ok (VPtr <$> ps, σ')
    /\ length ps = n
    /\ NoDup ps
    /\ (forall p, p ∈ ps -> σ !! p = None /\ σ' !! p = Some NewGenerator)
    /\ (forall q, q ∉ ps -> σ' !! q = σ !! q).
Proof.
  revert σ. induction n as [|n IH]; intros σ.
  - exists [], σ. simpl. split; [done|]. split; [done|].
    split; [constructor|]. split; [|done].
    intros p Hp. now apply elem_of_nil in Hp.
  - set (p0 := fresh (dom σ)).
    assert (Hp0 : σ !! p0 = None) by apply not_elem_of_dom, is_fresh.
    destruct (IH (<[p0 := NewGenerator]> σ))
      as (ps & σ' & Hrun & Hlen & Hnd & Hnew & Hold).
    assert (Hnotin : p0 ∉ ps).
    { intros Hin. destruct (Hnew p0 Hin) as [Hnone _].
      now rewrite lookup_insert_eq in Hnone. }
    exists (p0 :: ps), σ'. simpl. fold p0. rewrite Hrun. simpl.
    split; [done|]. split; [now rewrite Hlen|].
    split; [now apply NoDup_cons_2|]. split.
    + intros p [->|Hin]%elem_of_cons.
      * split; [exact Hp0|]. rewrite (Hold p0 Hnotin).
        apply lookup_insert_eq.
      * destruct (Hnew p Hin) as [Hnone Hsome]. split; [|exact Hsome].
        destruct (decide (p0 = p)) as [<-|Hne]; [exact Hp0|].
        now rewrite lookup_insert_ne in Hnone.
    + intros q Hq. apply not_elem_of_cons in Hq as [Hne Hq].
      rewrite (Hold q Hq). now rewrite lookup_insert_ne.
Qed.

(** From the empty store on, no ratchet is below zero. *)
Lemma run_ratchet_nonneg fuel cs vs σ p g :
  run fuel cs ∅ = Ok (vs, σ) -> σ !! p = Some g -> 0 <= lastSerial g.
Proof.
  revert vs σ p g.
  induction cs as [|c cs IH] using rev_ind; intros vs σ p g Hrun Hp.
  { simpl in Hrun. injection Hrun as <- <-. now rewrite lookup_empty in Hp. }
  apply run_snoc_inv in Hrun as (vs1 & σ1 & v & Hrun & Hexec & ->).
  destruct (σ1 !! p) as [g1|] eqn:Hp1.
  - destruct (exec_ratchet _ _ _ _ _ _ _ Hexec Hp1) as (g' & Hp' & Hle & _).
    assert (g' = g) as -> by congruence.
    specialize (IH _ _ _ _ Hrun Hp1). lia.
  - destruct c as [|q now|q y|q y|q now agelimit].
    + apply exec_CNewGenerator_inv in Hexec as (_ & _ & ->).
      destruct (decide (fresh (dom σ1) = p)) as [Heq|Hne].
      * rewrite Heq, lookup_insert_eq in Hp. now injection Hp as <-.
      * rewrite lookup_insert_ne in Hp by done. congruence.
    + apply exec_CGenerate_inv in Hexec as (g0 & id & Hq & _ & _ & ->).
      rewrite lookup_insert_ne in Hp by congruence. congruence.
    + apply exec_CSetSeen_inv in Hexec as (g0 & m & Hq & _ & _ & ->).
      rewrite lookup_insert_ne in Hp by congruence. congruence.
    + apply exec_CSeen_inv in Hexec as (g0 & Hq & _ & ->). congruence.
    + apply exec_CExpireSeen_inv in Hexec as (g0 & Hq & _ & ->).
      rewrite lookup_insert_ne in Hp by congruence. congruence.
Qed.

(** C7.  [NewGenerator] gives an instance with an empty history ([Seen] is
    false for every [x]) and the ratchet at its minimum: zero, the least
    value a ratchet ever has.  It never fails, and any number
    of calls give instances at pointers that differ from each other and
    from those of the instances there were, which stay as they were. *)
Theorem NewGenerator_empty_with_zero_ratchet :
  lastSerial NewGenerator = 0
  /\ seen NewGenerator = Some ∅
  /\ (forall x, Seen NewGenerator x = false)
  /\ (forall (fuel : nat) σ,
       exists p, σ !! p = None
         /\ exec fuel CNewGenerator σ = Ok (VPtr p, <[p := NewGenerator]> σ))
  /\ (forall (fuel n : nat) σ,
       exists (ps : list nat) σ',
         run fuel (replicate n CNewGenerator) σ = Ok (VPtr <$> ps, σ')
         /\ length ps = n
         /\ NoDup ps
         /\ (forall p, p ∈ ps -> σ !! p = None /\ σ' !! p = Some NewGenerator)
         /\ (forall q, q ∉ ps -> σ' !! q = σ !! q))
  /\ (forall (fuel : nat) cs vs σ p g,
       run fuel cs ∅ = Ok (vs, σ) -> σ !! p = Some g ->
       lastSerial NewGenerator <= lastSerial g).
Proof.
  split; [reflexivity|]. split; [reflexivity|].
  split; [apply Seen_NewGenerator|]. split; [|split].
  - intros fuel σ. exists (fresh (dom σ)). split; [|reflexivity].
    apply not_elem_of_dom, is_fresh.
  - apply run_NewGenerator_many.
  - intros fuel cs vs σ p g Hrun Hp. simpl.
    exact (run_ratchet_nonneg _ _ _ _ _ _ Hrun Hp).
Qed.

Lemma NewGenerator_empty_with_zero_ratchet_witness : 0 <= 5.
Proof.
  apply (proj2 (proj2 (proj2 (proj2 (proj2
           NewGenerator_empty_with_zero_ratchet))))
           10%nat Samples.used_calls Samples.used_values Samples.used_store
           0%nat {| lastSerial := 5; seen := Some ∅ |});
    vm_compute; reflexivity.
Defined.

(** C8. A call reaches one cell of one instance.  [Generate] on [p] puts
    the returned serial in the ratchet of [p] and leaves its history and
    every other instance as they were; [Seen] leaves the store as it was;
    [SetSeen] and [ExpireSeen] on [p] leave the ratchet of [p] and every
    other instance as they were; so after [SetSeen] on [p], [Seen] on
    another instance returns what it returned before. *)
Theorem calls_touch_one_cell
    (fuel : nat) (σ σ' : gmap nat Generator) (p : nat) (v : value) :
  (forall now,
      exec fuel (CGenerate p now) σ = Ok (v, σ') ->
      exists g id,
        σ !! p = Some g /\ v = VSerial id /\ lastSerial g < id
        /\ σ' = <[p := {| lastSerial := id; seen := seen g |}]> σ)
  /\ (forall x, exec fuel (CSeen p x) σ = Ok (v, σ') -> σ' = σ)
  /\ (forall c,
       (exists x, c = CSetSeen p x)
       \/ (exists now agelimit, c = CExpireSeen p now agelimit) ->
       exec fuel c σ = Ok (v, σ') ->
       exists g g',
         σ !! p = Some g /\ σ' = <[p := g']> σ
         /\ lastSerial g' = lastSerial g)
  /\ (forall x q,
       q <> p ->
       exec fuel (CSetSeen p x) σ = Ok (v, σ') ->
       σ' !! q = σ !! q
       /\ forall y,
           exec fuel (CSeen q y) σ' =
             match exec fuel (CSeen q y) σ with
             | Ok (b, _) => Ok (b, σ')
             | Panic => Panic
             | Timeout => Timeout
             end).
Proof.
  split; [|split; [|split]].
  - intros now (g & id & Hp & Hid & -> & ->)%exec_CGenerate_inv.
    exists g, id. split; [exact Hp|]. split; [reflexivity|].
    split; [lia | reflexivity].
  - intros x (g & _ & _ & ->)%exec_CSeen_inv. reflexivity.
  - intros c [[x ->]|(now & agelimit & ->)].
    + intros (g & m & Hp & _ & _ & ->)%exec_CSetSeen_inv.
      eexists g, _. split; [exact Hp|]. split; reflexivity.
    + intros (g & Hp & _ & ->)%exec_CExpireSeen_inv.
      eexists g, _. split; [exact Hp|]. split; reflexivity.
  - intros x q Hne (g & m & Hp & _ & _ & ->)%exec_CSetSeen_inv.
    assert (Hq : forall g', <[p := g']> σ !! q = σ !! q).
    { intros g'. now rewrite lookup_insert_ne. }
    split; [apply Hq|]. intros y. simpl. rewrite Hq.
    destruct (σ !! q); reflexivity.
Qed.

Lemma calls_touch_one_cell_witness :
  (exists g id,
      Samples.new_store !! 0%nat = Some g /\ VSerial 5 = VSerial id
      /\ lastSerial g < id
      /\ Samples.used_store =
           <[0%nat := {| lastSerial := id; seen := seen g |}]> Samples.new_store)
  /\ Samples.two_instances = Samples.two_instances
  /\ (exists g g',
        Samples.two_instances !! 0%nat = Some g
        /\ Samples.two_instances = <[0%nat := g']> Samples.two_instances
        /\ lastSerial g' = lastSerial g)
  /\ (Samples.two_instances_marked !! 1%nat = Samples.two_instances !! 1%nat
      /\ forall y,
          exec 10 (CSeen 1%nat y) Samples.two_instances_marked =
            match exec 10 (CSeen 1%nat y) Samples.two_instances with
            | Ok (b, _) => Ok (b, Samples.two_instances_marked)
            | Panic => Panic
            | Timeout => Timeout
            end).
Proof.
  split; [|split; [|split]].
  - apply (proj1 (calls_touch_one_cell 10 Samples.new_store
                    Samples.used_store 0%nat (VSerial 5)) 5).
    vm_compute. reflexivity.
  - symmetry.
    apply (proj1 (proj2 (calls_touch_one_cell 10 Samples.two_instances
                           Samples.two_instances 0%nat (VBool true))) 6).
    vm_compute. reflexivity.
  - apply (proj1 (proj2 (proj2
             (calls_touch_one_cell 10 Samples.two_instances
                Samples.two_instances 0%nat VUnit)))
             (CExpireSeen 0%nat 10 4)).
    + right. exists 10, 4. reflexivity.
    + vm_compute. reflexivity.
  - apply (proj2 (proj2 (proj2
             (calls_touch_one_cell 10 Samples.two_instances
                Samples.two_instances_marked 0%nat VUnit))) 7 1%nat).
    + discriminate.
    + vm_compute. reflexivity.
Defined.

End Instance_claims.

(** * Further properties of the history *)

Section History_algebra.

Implicit Types (g : Generator) (m : gmap Z unit) (x y : Z).

Lemma Generator_eq g g' :
  lastSerial g = lastSerial g' -> seen g = seen g' -> g = g'.
Proof. destruct g, g'. simpl. now intros -> ->. Qed.

(** X1. Two calls of [ExpireSeen] in a row, each with the clock reading and
    the age limit it has: the history after them is what the call with the
    larger cutoff alone leaves.  So a second call whose cutoff is not above
    that of the first changes nothing, and after a second call whose cutoff
    is not below that of the first the first has no effect left. *)
Theorem ExpireSeen_twice (now1 age1 now2 age2 : Z) g :
  ExpireSeen now2 age2 (ExpireSeen now1 age1 g) =
    (if ExpireSeen_limit now1 age1 <=? ExpireSeen_limit now2 age2
     then ExpireSeen now2 age2 g
     else ExpireSeen now1 age1 g)
  /\ (ExpireSeen_limit now2 age2 <= ExpireSeen_limit now1 age1 ->
      ExpireSeen now2 age2 (ExpireSeen now1 age1 g) = ExpireSeen now1 age1 g)
  /\ (ExpireSeen_limit now1 age1 <= ExpireSeen_limit now2 age2 ->
      ExpireSeen now2 age2 (ExpireSeen now1 age1 g) = ExpireSeen now2 age2 g).
Proof.
  assert (Hloop : forall l1 l2 m,
    ExpireSeen_loop l2 (ExpireSeen_loop l1 m) = ExpireSeen_loop (Z.max l1 l2) m).
  { intros l1 l2 m. apply map_eq. intros x.
    rewrite !ExpireSeen_loop_lookup.
    destruct (Z.ltb_spec x l1), (Z.ltb_spec x l2),
      (Z.ltb_spec x (Z.max l1 l2)); try reflexivity; lia. }
  assert (Hgen :
    ExpireSeen now2 age2 (ExpireSeen now1 age1 g) =
      {| lastSerial := lastSerial g;
         seen := ExpireSeen_loop
                   (Z.max (ExpireSeen_limit now1 age1)
                          (ExpireSeen_limit now2 age2))
                   <$> seen g |}).
  { unfold ExpireSeen. simpl.
    destruct (seen g) as [m|]; simpl; [|reflexivity]. now rewrite Hloop. }
  assert (Hfirst : ExpireSeen_limit now2 age2 <= ExpireSeen_limit now1 age1 ->
            ExpireSeen now2 age2 (ExpireSeen now1 age1 g)
            = ExpireSeen now1 age1 g).
  { intros Hle. rewrite Hgen, Z.max_l by lia. unfold ExpireSeen.
    destruct (seen g); reflexivity. }
  assert (Hsecond : ExpireSeen_limit now1 age1 <= ExpireSeen_limit now2 age2 ->
            ExpireSeen now2 age2 (ExpireSeen now1 age1 g)
            = ExpireSeen now2 age2 g).
  { intros Hle. rewrite Hgen, Z.max_r by lia. unfold ExpireSeen.
    destruct (seen g); reflexivity. }
  split; [|split; [exact Hfirst | exact Hsecond]].
  destruct (Z.leb_spec (ExpireSeen_limit now1 age1)
              (ExpireSeen_limit now2 age2)) as [Hle|Hgt].
  - now apply Hsecond.
  - apply Hfirst. lia.
Qed.

Lemma ExpireSeen_twice_witness :
  ExpireSeen 10 20 (ExpireSeen 10 4 Cases.g_used) = ExpireSeen 10 4 Cases.g_used
  /\ ExpireSeen 20 4 (ExpireSeen 10 4 Cases.g_used)
     = ExpireSeen 20 4 Cases.g_used.
Proof.
  split.
  - apply (proj1 (proj2 (ExpireSeen_twice 10 4 10 20 Cases.g_used))).
    vm_compute. discriminate.
  - apply (proj2 (proj2 (ExpireSeen_twice 10 4 20 4 Cases.g_used))).
    vm_compute. discriminate.
Defined.

(** X2. [SetSeen(x)] and then [ExpireSeen]: when [x] is below the cutoff
    the mark is gone and the result is that of [ExpireSeen] alone; otherwise
    the result is that of [ExpireSeen] first and [SetSeen(x)] after it. *)
Theorem SetSeen_then_ExpireSeen (now agelimit : Z) g g1 x :
  SetSeen g x = Some g1 ->
  (x < ExpireSeen_limit now agelimit ->
     ExpireSeen now agelimit g1 = ExpireSeen now agelimit g)
  /\ (ExpireSeen_limit now agelimit <= x ->
     SetSeen (ExpireSeen now agelimit g) x = Some (ExpireSeen now agelimit g1)).
Proof.
  unfold SetSeen. destruct (seen g) as [m|] eqn:Hm; [|done].
  intros [= <-]. split; intros Hx.
  - apply Generator_eq; [reflexivity|]. simpl. rewrite Hm. f_equal.
    apply map_eq. intros y. rewrite !ExpireSeen_loop_lookup.
    destruct (Z.ltb_spec y (ExpireSeen_limit now agelimit)); [reflexivity|].
    apply lookup_insert_ne. lia.
  - unfold ExpireSeen. simpl. rewrite Hm. do 3 f_equal.
    apply map_eq. intros y. rewrite ExpireSeen_loop_lookup.
    destruct (decide (x = y)) as [<-|Hne].
    + rewrite !lookup_insert_eq.
      destruct (Z.ltb_spec x (ExpireSeen_limit now agelimit)); [lia|done].
    + rewrite !lookup_insert_ne by done. now rewrite ExpireSeen_loop_lookup.
Qed.

Lemma SetSeen_then_ExpireSeen_witness :
  ExpireSeen 10 4 Samples.g_zero_seen = ExpireSeen 10 4 NewGenerator
  /\ SetSeen (ExpireSeen 10 20 NewGenerator) 0
     = Some (ExpireSeen 10 20 Samples.g_zero_seen).
Proof.
  split.
  - apply (proj1 (SetSeen_then_ExpireSeen 10 4 NewGenerator
                    Samples.g_zero_seen 0 eq_refl)).
    vm_compute. reflexivity.
  - apply (proj2 (SetSeen_then_ExpireSeen 10 20 NewGenerator
                    Samples.g_zero_seen 0 eq_refl)).
    vm_compute. discriminate.
Defined.

(** X3. The order of two calls of [SetSeen] does not matter: marking [x] and
    then [y] gives the generator that marking [y] and then [x] gives. *)
Theorem SetSeen_order g g1 g2 x y :
  SetSeen g x = Some g1 -> SetSeen g1 y = Some g2 ->
  exists g1', SetSeen g y = Some g1' /\ SetSeen g1' x = Some g2.
Proof.
  unfold SetSeen. destruct (seen g) as [m|] eqn:Hm; [|done].
  intros [= <-]. simpl. intros [= <-].
  eexists. split; [reflexivity|]. simpl. do 3 f_equal.
  destruct (decide (x = y)) as [->|Hne]; [reflexivity|].
  now apply insert_insert_ne.
Qed.

Lemma SetSeen_order_witness :
  exists g1', SetSeen NewGenerator 7 = Some g1'
    /\ SetSeen g1' 0 = Some {| lastSerial := 0;
                               seen := Some {[ 0 := tt; 7 := tt ]} |}.
Proof.
  apply (SetSeen_order NewGenerator Samples.g_zero_seen _ 0 7);
    vm_compute; reflexivity.
Defined.

(** X4. [SetSeen(x)] makes [len(g.seen)] one longer when [x] was not in the
    history and leaves it when [x] was there. *)
Theorem len_seen_SetSeen g g' x :
  SetSeen g x = Some g' ->
  len_seen g' = if Seen g x then len_seen g else S (len_seen g).
Proof.
  unfold SetSeen, Seen, len_seen. destruct (seen g) as [m|]; [|done].
  intros [= <-]. simpl. destruct (m !! x) as [u|] eqn:Hx.
  - now rewrite (map_size_insert_Some _ _ _ (mk_is_Some _ _ Hx)).
  - now rewrite map_size_insert_None.
Qed.

Lemma len_seen_SetSeen_witness :
  len_seen Samples.g_zero_seen = S (len_seen NewGenerator)
  /\ len_seen Samples.g_zero_seen = len_seen Samples.g_zero_seen.
Proof.
  split.
  - apply (len_seen_SetSeen NewGenerator Samples.g_zero_seen 0).
    vm_compute. reflexivity.
  - apply (len_seen_SetSeen Samples.g_zero_seen Samples.g_zero_seen 0).
    vm_compute. reflexivity.
Defined.

(** X5. [ExpireSeen] never makes the history longer: [len(g.seen)] after the
    call and the number of entries below the cutoff add up to [len(g.seen)]
    before it, and no value is in the history after the call that was not
    there before. *)
Theorem len_seen_ExpireSeen (now agelimit : Z) g :
  (len_seen (ExpireSeen now agelimit g) <= len_seen g)%nat
  /\ (forall m, seen g = Some m ->
       (len_seen (ExpireSeen now agelimit g)
        + size (filter (fun kv => (kv.1 < ExpireSeen_limit now agelimit)%Z) m)
        = size m)%nat)
  /\ (forall x, Seen (ExpireSeen now agelimit g) x = true -> Seen g x = true).
Proof.
  assert (Hsum : forall m,
    (size (ExpireSeen_loop (ExpireSeen_limit now agelimit) m)
     + size (filter (fun kv => (kv.1 < ExpireSeen_limit now agelimit)%Z) m)
     = size m)%nat).
  { intros m. rewrite ExpireSeen_loop_filter.
    rewrite Nat.add_comm, <- map_size_disj_union
      by apply map_disjoint_filter_complement.
    now rewrite map_filter_union_complement. }
  split; [|split].
  - unfold len_seen, ExpireSeen. simpl. destruct (seen g) as [m|]; [|done].
    specialize (Hsum m). lia.
  - intros m Hm. unfold len_seen, ExpireSeen. simpl. rewrite Hm. apply Hsum.
  - intros x. rewrite Seen_ExpireSeen, andb_true_iff. tauto.
Qed.

Lemma len_seen_ExpireSeen_witness :
  (len_seen (ExpireSeen 10 4 Samples.g_zero_seen)
   + size (filter (fun kv => (kv.1 < ExpireSeen_limit 10 4)%Z)
             ({[ 0%Z := tt ]} : gmap Z unit))
   = size ({[ 0%Z := tt ]} : gmap Z unit))%nat
  /\ Seen Samples.g_zero_seen 0 = true.
Proof.
  split.
  - apply (proj1 (proj2 (len_seen_ExpireSeen 10 4 Samples.g_zero_seen))).
    reflexivity.
  - apply (proj2 (proj2 (len_seen_ExpireSeen 10 20 Samples.g_zero_seen)) 0).
    vm_compute. reflexivity.
Defined.

End History_algebra.

(** * Invariants of an instance *)

Section Instance_invariants.

Import Heap.

Implicit Types (σ : gmap nat Generator) (p q : nat) (g : Generator)
  (c : call) (cs : list call) (v : value) (vs : list value) (x y : Z).

(** The sample generators have no value above the ratchet in the history. *)
Lemma below_ratchet_new : history_below_ratchet NewGenerator.
Proof. intros x. now rewrite Seen_NewGenerator. Qed.

Lemma below_ratchet_zero_seen : history_below_ratchet Samples.g_zero_seen.
Proof.
  intros x. unfold Seen, Samples.g_zero_seen. simpl.
  destruct (decide (x = 0)) as [->|H0]; [intros _; vm_compute; discriminate|].
  rewrite lookup_singleton_ne by congruence. discriminate.
Qed.

Lemma below_ratchet_used : history_below_ratchet Cases.g_used.
Proof.
  intros x. unfold Seen, Cases.g_used. simpl.
  destruct (decide (x = 5)) as [->|H5]; [intros _; vm_compute; discriminate|].
  destruct (decide (x = 7)) as [->|H7]; [intros _; vm_compute; discriminate|].
  rewrite lookup_insert_ne by congruence.
  rewrite lookup_singleton_ne by congruence. discriminate.
Qed.

(** X6. On an instance that [NewGenerator] made, [SetSeen] does not panic,
    whatever calls came before: it returns with [x] added to the map.  On a
    [Generator] whose map is nil it panics, while [Seen] returns false and
    [ExpireSeen] returns. *)
Theorem SetSeen_panics_only_on_nil_map (fuel : nat) σ p g x :
  σ !! p = Some g ->
  (forall cs vs, run fuel cs ∅ = Ok (vs, σ) ->
     exists m, seen g = Some m
       /\ exec fuel (CSetSeen p x) σ =
            Ok (VUnit, <[p := {| lastSerial := lastSerial g;
                                 seen := Some (<[x := tt]> m) |}]> σ))
  /\ (seen g = None ->
      exec fuel (CSetSeen p x) σ = Panic
      /\ exec fuel (CSeen p x) σ = Ok (VBool false, σ)
      /\ forall now agelimit,
          exec fuel (CExpireSeen p now agelimit) σ = Ok (VUnit, <[p := g]> σ)).
Proof.
  intros Hp. split.
  - intros cs vs Hrun.
    destruct (run_seen_marked _ _ _ _ Hrun p g Hp) as [[m Hm] _].
    exists m. split; [exact Hm|]. simpl. rewrite Hp. unfold SetSeen.
    now rewrite Hm.
  - intros Hnil. simpl. rewrite Hp. unfold SetSeen, Seen, ExpireSeen.
    rewrite Hnil. split; [reflexivity|]. split; [reflexivity|].
    intros now agelimit. do 3 f_equal. apply Generator_eq; simpl; congruence.
Qed.

Lemma SetSeen_panics_only_on_nil_map_witness :
  (exists m, seen {| lastSerial := 5; seen := Some ∅ |} = Some m
     /\ exec 10 (CSetSeen 0%nat 9) Samples.used_store =
          Ok (VUnit, <[0%nat := {| lastSerial := 5;
                                   seen := Some (<[9 := tt]> m) |}]>
                       Samples.used_store))
  /\ exec 10 (CSetSeen 0%nat 9) Cases.nil_store = Panic.
Proof.
  split.
  - apply (proj1 (SetSeen_panics_only_on_nil_map 10 Samples.used_store 0%nat
                    {| lastSerial := 5; seen := Some ∅ |} 9 eq_refl)
             Samples.used_calls Samples.used_values).
    vm_compute. reflexivity.
  - apply (proj2 (SetSeen_panics_only_on_nil_map 10 Cases.nil_store 0%nat
                    Cases.g_nil 9 eq_refl)).
    reflexivity.
Defined.

(** X7. While the history holds no value above the ratchet, a serial that
    [Generate] returns is not in the history.  A new generator is in that
    state, and [Generate], [ExpireSeen] and [SetSeen] of a value up to the
    ratchet (such as a serial issued before) keep it there. *)
Theorem fresh_serial_is_unseen :
  history_below_ratchet NewGenerator
  /\ (forall (fuel : nat) (now : Z) g id g',
       history_below_ratchet g ->
       Generate fuel now g = Some (id, g') ->
       Seen g' id = false /\ history_below_ratchet g')
  /\ (forall g x g',
       history_below_ratchet g -> x <= lastSerial g ->
       SetSeen g x = Some g' -> history_below_ratchet g')
  /\ (forall (now agelimit : Z) g,
       history_below_ratchet g ->
       history_below_ratchet (ExpireSeen now agelimit g)).
Proof.
  split; [|split; [|split]].
  - intros x. now rewrite Seen_NewGenerator.
  - intros fuel now g id g' Hinv (Hid & _ & ->)%Generate_sound.
    assert (Hlt : lastSerial g < id) by lia.
    split.
    + destruct (Seen {| lastSerial := id; seen := seen g |} id) eqn:Hs;
        [|reflexivity].
      specialize (Hinv id Hs). lia.
    + intros x Hx. specialize (Hinv x Hx). simpl. lia.
  - intros g x g' Hinv Hx Hset y.
    rewrite (Seen_SetSeen _ _ _ y Hset).
    assert (lastSerial g' = lastSerial g) as ->.
    { unfold SetSeen in Hset. destruct (seen g); [|done].
      now injection Hset as <-. }
    destruct (decide (x = y)) as [<-|_]; [done | apply Hinv].
  - intros now agelimit g Hinv x.
    rewrite Seen_ExpireSeen, andb_true_iff. intros [Hx _]. apply (Hinv x Hx).
Qed.

Lemma fresh_serial_is_unseen_witness :
  (Seen {| lastSerial := 8; seen := seen Cases.g_used |} 8 = false
   /\ history_below_ratchet {| lastSerial := 8; seen := seen Cases.g_used |})
  /\ history_below_ratchet Samples.g_zero_seen
  /\ history_below_ratchet (ExpireSeen 10 4 Cases.g_used).
Proof.
  split; [|split].
  - apply (proj1 (proj2 fresh_serial_is_unseen) 5%nat 6 Cases.g_used 8
             {| lastSerial := 8; seen := seen Cases.g_used |}
             below_ratchet_used).
    vm_compute. reflexivity.
  - apply (proj1 (proj2 (proj2 fresh_serial_is_unseen)) NewGenerator 0
             Samples.g_zero_seen below_ratchet_new).
    + vm_compute. discriminate.
    + vm_compute. reflexivity.
  - apply (proj2 (proj2 (proj2 fresh_serial_is_unseen)) 10 4 Cases.g_used
             below_ratchet_used).
Defined.

(** X8. With no value above the ratchet in the history, [ExpireSeen(0)] at a
    clock reading above the ratchet empties the history. *)
Theorem ExpireSeen_zero_clears (now : Z) g :
  history_below_ratchet g ->
  lastSerial g < Time.UnixNano now ->
  (forall x, Seen (ExpireSeen now 0 g) x = false)
  /\ len_seen (ExpireSeen now 0 g) = 0%nat
  /\ lastSerial (ExpireSeen now 0 g) = lastSerial g.
Proof.
  intros Hinv Hnow.
  assert (Hlimit : ExpireSeen_limit now 0 = Time.UnixNano now).
  { rewrite ExpireSeen_limit_wrap. unfold Time.UnixNano. f_equal. lia. }
  assert (Hnone : forall x, Seen (ExpireSeen now 0 g) x = false).
  { intros x. rewrite Seen_ExpireSeen, Hlimit.
    destruct (Seen g x) eqn:Hx; [|reflexivity]. specialize (Hinv x Hx).
    simpl. apply negb_false_iff, Z.ltb_lt. lia. }
  split; [exact Hnone|]. split; [|reflexivity].
  unfold len_seen. destruct (seen (ExpireSeen now 0 g)) as [m|] eqn:Hm;
    [|reflexivity].
  apply map_size_empty_iff, map_empty. intros x.
  specialize (Hnone x). unfold Seen in Hnone. rewrite Hm in Hnone.
  destruct (m !! x); [discriminate | reflexivity].
Qed.

Lemma ExpireSeen_zero_clears_witness :
  (forall x, Seen (ExpireSeen 10 0 Samples.g_zero_seen) x = false)
  /\ len_seen (ExpireSeen 10 0 Samples.g_zero_seen) = 0%nat
  /\ lastSerial (ExpireSeen 10 0 Samples.g_zero_seen)
     = lastSerial Samples.g_zero_seen.
Proof.
  apply (ExpireSeen_zero_clears 10 Samples.g_zero_seen).
  - exact below_ratchet_zero_seen.
  - vm_compute. reflexivity.
Defined.

End Instance_invariants.

(** * The ratchet over a run *)

Section Ratchet_run.

Import Heap.

Implicit Types (σ : gmap nat Generator) (p q : nat) (g : Generator)
  (c : call) (cs : list call) (v : value) (vs : list value) (x y : Z).

Lemma issued_app p cs1 cs2 vs1 vs2 :
  length cs1 = length vs1 ->
  issued p (cs1 ++ cs2) (vs1 ++ vs2) = issued p cs1 vs1 ++ issued p cs2 vs2.
Proof.
  revert vs1. induction cs1 as [|c cs1 IH]; intros [|v vs1] Hlen;
    try discriminate; [reflexivity|].
  injection Hlen as Hlen. specialize (IH vs1 Hlen).
  destruct c as [|q now| | |]; simpl; try exact IH.
  destruct v; try exact IH.
  destruct (decide (q = p)); simpl; now rewrite IH.
Qed.

(** A run issues nothing on a pointer that holds no instance when it ends. *)
Lemma run_issued_none fuel cs σ vs σ' p :
  run fuel cs σ = Ok (vs, σ') -> σ' !! p = None -> issued p cs vs = [].
Proof.
  revert σ vs. induction cs as [|c cs IH]; intros σ vs Hrun Hp.
  - now destruct vs.
  - apply run_cons_inv in Hrun as (v & σ1 & vs' & Hexec & Hrun & ->).
    specialize (IH _ _ Hrun Hp).
    destruct c as [|q now|q x|q x|q now agelimit];
      try (rewrite issued_cons_other by (intros ? ? [=]); exact IH).
    apply exec_CGenerate_inv in Hexec as (g0 & id & Hq & _ & -> & ->).
    rewrite issued_cons_Generate. destruct (decide (q = p)) as [->|_];
      [|exact IH].
    assert (Hsome : is_Some (σ' !! p)).
    { eapply run_lookup_mono; [exact Hrun|]. rewrite lookup_insert_eq. eauto. }
    rewrite Hp in Hsome. now destruct Hsome.
Qed.

(** X9. After any sequence of calls that starts with no instance, the
    ratchet of an instance is the serial that the last [Generate] on it
    returned, and zero when there was none. *)
Theorem ratchet_is_last_issued (fuel : nat) cs vs σ p g :
  run fuel cs ∅ = Ok (vs, σ) ->
  σ !! p = Some g ->
  lastSerial g = default 0 (last (issued p cs vs)).
Proof.
  revert vs σ g. induction cs as [|c cs IH] using rev_ind; intros vs σ g Hrun Hp.
  { simpl in Hrun. injection Hrun as <- <-. now rewrite lookup_empty in Hp. }
  apply run_snoc_inv in Hrun as (vs1 & σ1 & v & Hrun & Hexec & ->).
  rewrite issued_app by (symmetry; exact (run_length _ _ _ _ _ Hrun)).
  assert (Hkeep : forall g1, σ1 !! p = Some g1 -> lastSerial g = lastSerial g1 ->
            issued p [c] [v] = [] ->
            lastSerial g = default 0 (last (issued p cs vs1 ++ issued p [c] [v]))).
  { intros g1 Hp1 Hlast ->. rewrite app_nil_r, Hlast. eauto. }
  destruct c as [|q now|q x|q x|q now agelimit].
  - apply exec_CNewGenerator_inv in Hexec as (Hfresh & -> & ->).
    destruct (decide (fresh (dom σ1) = p)) as [Heq|Hne].
    + rewrite Heq in *. rewrite lookup_insert_eq in Hp. injection Hp as <-.
      rewrite (run_issued_none _ _ _ _ _ _ Hrun Hfresh). reflexivity.
    + rewrite lookup_insert_ne in Hp by done. now apply (Hkeep g).
  - apply exec_CGenerate_inv in Hexec as (g0 & id & Hq & _ & -> & ->).
    destruct (decide (q = p)) as [->|Hne].
    + rewrite lookup_insert_eq in Hp. injection Hp as <-. simpl.
      rewrite decide_True by done. now rewrite last_snoc.
    + rewrite lookup_insert_ne in Hp by done. apply (Hkeep g); [done..|].
      simpl. now rewrite decide_False.
  - apply exec_CSetSeen_inv in Hexec as (g0 & m & Hq & _ & -> & ->).
    destruct (decide (q = p)) as [->|Hne].
    + rewrite lookup_insert_eq in Hp. injection Hp as <-.
      now apply (Hkeep g0).
    + rewrite lookup_insert_ne in Hp by done. now apply (Hkeep g).
  - apply exec_CSeen_inv in Hexec as (g0 & Hq & -> & ->). now apply (Hkeep g).
  - apply exec_CExpireSeen_inv in Hexec as (g0 & Hq & -> & ->).
    destruct (decide (q = p)) as [->|Hne].
    + rewrite lookup_insert_eq in Hp. injection Hp as <-.
      now apply (Hkeep g0).
    + rewrite lookup_insert_ne in Hp by done. now apply (Hkeep g).
Qed.

Lemma ratchet_is_last_issued_witness :
  7 = default 0 (last (issued 0%nat Samples.three_calls Samples.three_values)).
Proof.
  apply (ratchet_is_last_issued 10 Samples.three_calls Samples.three_values
           Samples.three_store 0%nat {| lastSerial := 7; seen := Some ∅ |});
    vm_compute; reflexivity.
Defined.

(** Calls of [Generate] on one instance while no clock reading is above the
    successor of the ratchet: the serials are the successors of the ratchet,
    one after the other. *)
Lemma run_Generate_behind fuel p ts σ σ' vs g :
  σ !! p = Some g ->
  Forall (fun t => Time.UnixNano t <= lastSerial g + 1) ts ->
  run fuel (CGenerate p <$> ts) σ = Ok (vs, σ') ->
  vs = VSerial <$> seqZ (lastSerial g + 1) (Z.of_nat (length ts))
  /\ σ' !! p = Some {| lastSerial := lastSerial g + Z.of_nat (length ts);
                       seen := seen g |}.
Proof.
  revert σ vs g. induction ts as [|t ts IH]; intros σ vs g Hp Hts Hrun.
  - simpl in Hrun. injection Hrun as <- <-. split; [reflexivity|].
    rewrite Hp. f_equal. apply Generator_eq; simpl; [lia | reflexivity].
  - apply Forall_cons in Hts as [Ht Hts].
    rewrite fmap_cons in Hrun.
    apply run_cons_inv in Hrun as (v & σ1 & vs' & Hexec & Hrun & ->).
    apply exec_CGenerate_inv in Hexec as (g0 & id & Hq & Hid & -> & ->).
    assert (g0 = g) as -> by congruence.
    assert (id = lastSerial g + 1) as -> by lia.
    set (g1 := {| lastSerial := lastSerial g + 1; seen := seen g |}) in *.
    assert (Hp1 : <[p := g1]> σ !! p = Some g1) by apply lookup_insert_eq.
    assert (Hts1 : Forall (fun t => Time.UnixNano t <= lastSerial g1 + 1) ts).
    { eapply Forall_impl; [exact Hts|]. simpl. intros; lia. }
    destruct (IH _ _ _ Hp1 Hts1 Hrun) as [-> Hp']. subst g1.
    simpl lastSerial in *. simpl seen in *. split.
    + rewrite (seqZ_cons (lastSerial g + 1)) by (simpl length; lia).
      rewrite fmap_cons. do 2 f_equal. f_equal; simpl length; lia.
    + rewrite Hp'. f_equal. apply Generator_eq; simpl; [lia | reflexivity].
Qed.

(** A burst that returns, with the clock not past its first serial. *)
Lemma run_Generate_burst (fuel : nat) p t ts σ σ' vs g :
  σ !! p = Some g ->
  Forall (fun t' =>
            Time.UnixNano t' <= Z.max (Time.UnixNano t) (lastSerial g + 1)) ts ->
  run fuel (CGenerate p <$> (t :: ts)) σ = Ok (vs, σ') ->
  vs = VSerial <$> seqZ (Z.max (Time.UnixNano t) (lastSerial g + 1))
                     (Z.of_nat (S (length ts)))
  /\ σ' !! p =
       Some {| lastSerial := Z.max (Time.UnixNano t) (lastSerial g + 1)
                             + Z.of_nat (length ts);
               seen := seen g |}.
Proof.
  intros Hp Hts Hrun. rewrite fmap_cons in Hrun.
  apply run_cons_inv in Hrun as (v & σ1 & vs' & Hexec & Hrun & ->).
  apply exec_CGenerate_inv in Hexec as (g0 & id & Hq & Hid & -> & ->).
  assert (g0 = g) as -> by congruence. rewrite <- Hid in *.
  set (g1 := {| lastSerial := id; seen := seen g |}) in *.
  assert (Hp1 : <[p := g1]> σ !! p = Some g1) by apply lookup_insert_eq.
  assert (Hts1 : Forall (fun t => Time.UnixNano t <= lastSerial g1 + 1) ts).
  { eapply Forall_impl; [exact Hts|]. simpl. intros; lia. }
  destruct (run_Generate_behind _ _ _ _ _ _ _ Hp1 Hts1 Hrun) as [-> Hp'].
  subst g1.
  simpl lastSerial in *. simpl seen in *. split; [|exact Hp'].
  rewrite (seqZ_cons id) by lia. rewrite fmap_cons. do 2 f_equal.
  f_equal; lia.
Qed.

(** [Generate] returns when the ratchet is below the largest [int64] and
    the bound on the loop covers the whole range of [int64]. *)
Lemma Generate_total_range (fuel : nat) (now : Z) g :
  lastSerial g < max_int64 ->
  (Z.to_nat (2 ^ 64) <= fuel)%nat ->
  Generate fuel now g =
    Some (Z.max (Time.UnixNano now) (lastSerial g + 1),
          {| lastSerial := Z.max (Time.UnixNano now) (lastSerial g + 1);
             seen := seen g |}).
Proof.
  intros Hlast Hfuel. apply Generate_total; [exact Hlast|].
  pose proof (wrap64_in_range now) as [Hlo _].
  unfold Time.UnixNano. unfold min_int64, max_int64 in *. lia.
Qed.

(** Calls of [Generate] on one instance return while the ratchet and the
    clock leave room for one serial per call below the top of the range. *)
Lemma run_Generate_total (fuel : nat) p ts σ g (M : Z) :
  (Z.to_nat (2 ^ 64) <= fuel)%nat ->
  σ !! p = Some g ->
  lastSerial g + 1 <= M ->
  Forall (fun t => Time.UnixNano t <= M) ts ->
  M + Z.of_nat (length ts) <= max_int64 + 1 ->
  exists vs σ', run fuel (CGenerate p <$> ts) σ = Ok (vs, σ').
Proof.
  intros Hfuel. revert σ g M.
  induction ts as [|t ts IH]; intros σ g M Hp Hlast Hts Hroom.
  - eexists _, _. reflexivity.
  - apply Forall_cons in Hts as [Ht Hts]. simpl length in Hroom.
    rewrite fmap_cons. cbn [run exec]. rewrite Hp.
    rewrite Generate_total_range by (done || lia).
    set (id := Z.max (Time.UnixNano t) (lastSerial g + 1)).
    set (g1 := {| lastSerial := id; seen := seen g |}).
    destruct (IH (<[p := g1]> σ) g1 (M + 1)) as (vs & σ' & Hrun).
    + apply lookup_insert_eq.
    + simpl. unfold id. lia.
    + eapply Forall_impl; [exact Hts|]. simpl. intros; lia.
    + lia.
    + rewrite Hrun. eexists _, _. reflexivity.
Qed.

(** X10. When the clock does not get past the first serial of a burst of
    calls of [Generate] (it stands still, or steps back, or the ratchet is
    ahead of it), the burst returns that serial and its successors in order,
    and the ratchet ends at the last of them.  The burst does return when
    the last of these serials is an [int64]. *)
Theorem Generate_burst_consecutive p t ts σ g :
  σ !! p = Some g ->
  Forall (fun t' =>
            Time.UnixNano t' <= Z.max (Time.UnixNano t) (lastSerial g + 1)) ts ->
  (forall (fuel : nat) vs σ',
      run fuel (CGenerate p <$> (t :: ts)) σ = Ok (vs, σ') ->
      vs = VSerial <$> seqZ (Z.max (Time.UnixNano t) (lastSerial g + 1))
                         (Z.of_nat (S (length ts)))
      /\ σ' !! p =
           Some {| lastSerial := Z.max (Time.UnixNano t) (lastSerial g + 1)
                                 + Z.of_nat (length ts);
                   seen := seen g |})
  /\ (Z.max (Time.UnixNano t) (lastSerial g + 1) + Z.of_nat (length ts)
        <= max_int64 ->
      exists fuel0 : nat, forall fuel : nat, (fuel0 <= fuel)%nat ->
        exists vs σ', run fuel (CGenerate p <$> (t :: ts)) σ = Ok (vs, σ')).
Proof.
  intros Hp Hts. split.
  - intros fuel vs σ' Hrun. exact (run_Generate_burst _ _ _ _ _ _ _ _ Hp Hts Hrun).
  - intros Hroom. exists (Z.to_nat (2 ^ 64)). intros fuel Hfuel.
    apply (run_Generate_total fuel p (t :: ts) σ g
             (Z.max (Time.UnixNano t) (lastSerial g + 1)) Hfuel Hp).
    + lia.
    + constructor; [lia | exact Hts].
    + simpl length. lia.
Qed.

Lemma Generate_burst_consecutive_witness :
  (Cases.burst_values = VSerial <$> seqZ (Z.max (Time.UnixNano 5) (0 + 1)) 3
   /\ Cases.burst_store !! 0%nat =
        Some {| lastSerial := Z.max (Time.UnixNano 5) (0 + 1) + 2;
                seen := Some ∅ |})
  /\ (exists fuel0 : nat, forall fuel : nat, (fuel0 <= fuel)%nat ->
        exists vs σ',
          run fuel (CGenerate 0%nat <$> [5; 5; 3]) Samples.new_store
          = Ok (vs, σ')).
Proof.
  assert (Hp : Samples.new_store !! 0%nat = Some NewGenerator) by reflexivity.
  assert (Hts : Forall (fun t' => Time.UnixNano t'
                          <= Z.max (Time.UnixNano 5) (lastSerial NewGenerator + 1))
                  [5; 3]).
  { repeat constructor; vm_compute; discriminate. }
  split.
  - apply (proj1 (Generate_burst_consecutive 0%nat 5 [5; 3] Samples.new_store
                    NewGenerator Hp Hts) 10%nat).
    vm_compute. reflexivity.
  - apply (proj2 (Generate_burst_consecutive 0%nat 5 [5; 3] Samples.new_store
                    NewGenerator Hp Hts)).
    vm_compute. discriminate.
Defined.

End Ratchet_run.

(** * The earlier revision *)

Section Global_revision.

Import Heap.

Implicit Types (σ : gmap nat Generator) (p : nat) (g : Generator)
  (s : Global.state).

(** One call of the earlier revision and the same call on the instance. *)
Lemma Global_exec_agree fuel (c : Global.call) s σ p g :
  σ !! p = Some g -> Global.same s g ->
  match Global.exec fuel c s, exec fuel (Global.on p c) σ with
  | Ok (v, s'), Ok (v', σ') =>
      v = v' /\ exists g', σ' !! p = Some g' /\ Global.same s' g'
  | Panic, Panic => True
  | Timeout, Timeout => True
  | _, _ => False
  end.
Proof.
  intros Hp [Hl Hh]. destruct s as [l h], g as [l' h']. simpl in Hl, Hh.
  subst l' h'. destruct c as [now|x|x|now agelimit]; simpl; rewrite Hp.
  - unfold Global.Generate, Generate. simpl.
    destruct (Generate_loop fuel (Time.UnixNano now) l) as [id|]; [|done].
    split; [done|]. eexists. rewrite lookup_insert_eq. split; [done|].
    split; reflexivity.
  - unfold Global.SetSeen, SetSeen. simpl. destruct h as [m|]; [|done].
    split; [done|]. eexists. rewrite lookup_insert_eq. split; [done|].
    split; reflexivity.
  - split; [reflexivity|]. eexists. split; [exact Hp|]. split; reflexivity.
  - split; [done|]. eexists. rewrite lookup_insert_eq. split; [done|].
    split; reflexivity.
Qed.

Lemma Global_run_agree fuel (cs : list Global.call) s σ p g :
  σ !! p = Some g -> Global.same s g ->
  Global.agree p (Global.run fuel cs s) (run fuel (Global.on p <$> cs) σ).
Proof.
  revert s σ g. induction cs as [|c cs IH]; intros s σ g Hp Hsame.
  - simpl. split; [done|]. eauto.
  - rewrite fmap_cons. simpl run. simpl Global.run.
    pose proof (Global_exec_agree fuel c s σ p g Hp Hsame) as Hstep.
    destruct (Global.exec fuel c s) as [[v s1]| |],
      (exec fuel (Global.on p c) σ) as [[v' σ1]| |]; try done.
    destruct Hstep as (<- & g1 & Hp1 & Hsame1).
    specialize (IH s1 σ1 g1 Hp1 Hsame1). unfold Global.agree in *.
    destruct (Global.run fuel cs s1) as [[vs s2]| |],
      (run fuel (Global.on p <$> cs) σ1) as [[vs' σ2]| |]; try done.
    destruct IH as (<- & Hg). split; [done | exact Hg].
Qed.

(** X11. The package functions of the earlier revision, after [init], and
    the methods on an instance from [NewGenerator] do the same: every
    sequence of calls returns the same results in both, leaves the same
    ratchet and history, and fails in one when it fails in the other. *)
Theorem Global_revision_agrees (fuel : nat) (cs : list Global.call) :
  exists p σ0,
    exec fuel CNewGenerator ∅ = Ok (VPtr p, σ0)
    /\ Global.agree p (Global.run fuel cs (Global.init Global.zero))
                      (run fuel (Global.on p <$> cs) σ0).
Proof.
  exists (fresh (dom (∅ : gmap nat Generator))),
    (<[fresh (dom (∅ : gmap nat Generator)) := NewGenerator]> ∅).
  split; [reflexivity|].
  apply (Global_run_agree fuel cs _ _ _ NewGenerator).
  - apply lookup_insert_eq.
  - split; reflexivity.
Qed.

End Global_revision.

(** * The tests of the package *)

Section Test_facts.

Import Heap Tests.

Implicit Types (w : world) (g : Generator) (clock : nat -> Z).

(** What a completed [gen.Generate()] did. *)
Lemma gen_Generate_inv fuel clock w id w1 :
  gen_Generate fuel clock w = Ok (id, w1) ->
  id = Z.max (Time.UnixNano (clock (ticks w))) (lastSerial (gen w) + 1)
  /\ lastSerial (gen w) < max_int64
  /\ w1 = {| gen := {| lastSerial := id; seen := seen (gen w) |};
             ticks := S (ticks w);
             log := log w |}.
Proof.
  unfold gen_Generate.
  destruct (Generate fuel (clock (ticks w)) (gen w)) as [[id' g']|] eqn:Hg;
    [|done].
  intros [= <- <-]. apply Generate_sound in Hg as (Hid & Hlt & ->). done.
Qed.

(** [gen.Generate()] returns when the ratchet is below the largest [int64]
    and the bound on the loop covers the whole range. *)
Lemma gen_Generate_total fuel clock w :
  lastSerial (gen w) < max_int64 ->
  (Z.to_nat (2 ^ 64) <= fuel)%nat ->
  gen_Generate fuel clock w =
    Ok (Z.max (Time.UnixNano (clock (ticks w))) (lastSerial (gen w) + 1),
        {| gen := {| lastSerial :=
                       Z.max (Time.UnixNano (clock (ticks w)))
                             (lastSerial (gen w) + 1);
                     seen := seen (gen w) |};
           ticks := S (ticks w);
           log := log w |}).
Proof.
  intros Hlast Hfuel. unfold gen_Generate. rewrite Generate_total; [done..|].
  pose proof (wrap64_in_range (clock (ticks w))) as [Hlo _].
  unfold Time.UnixNano. unfold min_int64, max_int64 in *. lia.
Qed.

Lemma TestSerial_loop_quiet fuel clock (n : nat) w w' :
  TestSerial_loop fuel clock n w = Ok w' ->
  log w' = log w
  /\ seen (gen w') = seen (gen w)
  /\ ticks w' = (ticks w + 2 * n)%nat
  /\ lastSerial (gen w) + 2 * Z.of_nat n <= lastSerial (gen w').
Proof.
  revert w. induction n as [|n IH]; intros w.
  - simpl. intros [= <-]. repeat split; lia.
  - simpl TestSerial_loop.
    destruct (gen_Generate fuel clock w) as [[n1 w1]| |] eqn:H1; [|done..].
    destruct (gen_Generate fuel clock w1) as [[n2 w2]| |] eqn:H2; [|done..].
    apply gen_Generate_inv in H1 as (Hn1 & _ & ->).
    apply gen_Generate_inv in H2 as (Hn2 & _ & ->). simpl in Hn2.
    destruct (Z.eqb_spec n1 n2) as [Heq|_]; [lia|].
    intros (Hlog & Hseen & Hticks & Hlast)%IH. simpl in *.
    repeat split; [done..|lia|lia].
Qed.

Lemma TestSerial_loop_total fuel clock (n : nat) w :
  (Z.to_nat (2 ^ 64) <= fuel)%nat ->
  lastSerial (gen w) + 2 * Z.of_nat n <= max_int64 ->
  (forall k, Time.UnixNano (clock k) + 2 * Z.of_nat n <= max_int64) ->
  exists w', TestSerial_loop fuel clock n w = Ok w'.
Proof.
  intros Hfuel. revert w. induction n as [|n IH]; intros w Hlast Hclock.
  - eexists. reflexivity.
  - simpl TestSerial_loop.
    rewrite gen_Generate_total by (done || lia). simpl.
    pose proof (Hclock (ticks w)) as H1. pose proof (Hclock (S (ticks w))) as H2.
    rewrite gen_Generate_total by (done || (simpl; lia)). simpl.
    match goal with |- context [if ?a =? ?b then _ else _] =>
      destruct (Z.eqb_spec a b) as [Heq|_]; [lia|] end.
    apply IH; simpl; [lia|]. intros k. specialize (Hclock k). lia.
Qed.

(** X12. [TestSerial] reports nothing, whatever the clock reads and whatever
    the shared generator was used for before: two serials in a row are never
    equal.  It reads the clock 200 times, leaves the history alone and moves
    the ratchet up by at least 200; it returns when the ratchet and the clock
    are at least 200 below the largest [int64]. *)
Theorem TestSerial_reports_nothing clock w :
  (forall (fuel : nat) w',
      TestSerial fuel clock w = Ok w' ->
      log w' = log w
      /\ seen (gen w') = seen (gen w)
      /\ ticks w' = (ticks w + 200)%nat
      /\ lastSerial (gen w) + 200 <= lastSerial (gen w'))
  /\ (lastSerial (gen w) + 200 <= max_int64 ->
      (forall k, Time.UnixNano (clock k) + 200 <= max_int64) ->
      exists fuel0 : nat, forall fuel : nat, (fuel0 <= fuel)%nat ->
        exists w', TestSerial fuel clock w = Ok w').
Proof.
  split.
  - intros fuel w' H. apply TestSerial_loop_quiet in H. exact H.
  - intros Hlast Hclock. exists (Z.to_nat (2 ^ 64)). intros fuel Hfuel.
    apply TestSerial_loop_total; [done|lia|]. intros k. specialize (Hclock k).
    lia.
Qed.

Lemma TestSerial_reports_nothing_witness :
  (exists fuel0 : nat, forall fuel : nat, (fuel0 <= fuel)%nat ->
      exists w', TestSerial fuel Cases.clock_still Cases.w_start = Ok w')
  /\ (log (mkWorld {| lastSerial := 204; seen := Some ∅ |} 200 [])
       = log Cases.w_start
      /\ seen (gen (mkWorld {| lastSerial := 204; seen := Some ∅ |} 200 []))
         = seen (gen Cases.w_start)
      /\ ticks (mkWorld {| lastSerial := 204; seen := Some ∅ |} 200 [])
         = (ticks Cases.w_start + 200)%nat
      /\ lastSerial (gen Cases.w_start) + 200
         <= lastSerial
              (gen (mkWorld {| lastSerial := 204; seen := Some ∅ |} 200 []))).
Proof.
  split.
  - apply (proj2 (TestSerial_reports_nothing Cases.clock_still Cases.w_start)).
    + vm_compute. discriminate.
    + intros k. vm_compute. discriminate.
  - apply (proj1 (TestSerial_reports_nothing Cases.clock_still Cases.w_start)
             300%nat).
    vm_compute. reflexivity.
Defined.

Lemma ExpireSeen_limit_zero (now : Z) :
  ExpireSeen_limit now 0 = Time.UnixNano now.
Proof.
  rewrite ExpireSeen_limit_wrap. unfold Time.UnixNano. f_equal. lia.
Qed.

(** [Seen] looks at the map only. *)
Lemma Seen_ratchet (l l' : Z) (h : option (gmap Z unit)) (x : Z) :
  Seen {| lastSerial := l; seen := h |} x
  = Seen {| lastSerial := l'; seen := h |} x.
Proof. reflexivity. Qed.

(** What [TestOneTime] has told when it returns. *)
Lemma TestOneTime_log (fuel : nat) clock w w' :
  history_below_ratchet (gen w) ->
  TestOneTime fuel clock w = Ok w' ->
  log w' =
    log w ++
    (if Z.max (Time.UnixNano (clock (ticks w))) (lastSerial (gen w) + 1)
          <? Time.UnixNano (clock (S (S (ticks w))))
     then []
     else [Error "Emptied history but value was still 'seen'"])
  /\ ticks w' = S (S (S (ticks w)))
  /\ history_below_ratchet (gen w').
Proof.
  intros Hinv H. unfold TestOneTime in H.
  destruct (gen_Generate fuel clock w) as [[n1 w1]| |] eqn:H1; [|done..].
  apply gen_Generate_inv in H1 as (Hn1 & _ & ->).
  rewrite <- Hn1. unfold gen_SetSeen, SetSeen in H. simpl in H.
  destruct (seen (gen w)) as [m|] eqn:Hm; [|done].
  assert (Hold : forall x, lastSerial (gen w) < x -> m !! x = None).
  { intros x Hx. destruct (m !! x) eqn:Hmx; [|done].
    assert (Hs : Seen (gen w) x = true) by (unfold Seen; now rewrite Hm, Hmx).
    specialize (Hinv x Hs). lia. }
  unfold Seen at 1 in H. simpl in H. rewrite lookup_insert_eq in H. simpl in H.
  destruct (gen_Generate fuel clock _) as [[n2 w4]| |] eqn:H2 in H; [|done..].
  apply gen_Generate_inv in H2 as (Hn2 & _ & ->). simpl in Hn2, H.
  assert (HS2 : Seen {| lastSerial := n2; seen := Some (<[n1 := tt]> m) |} n2
                = false).
  { unfold Seen. simpl. rewrite lookup_insert_ne, Hold by lia. reflexivity. }
  assert (HS1 : Seen {| lastSerial := n2; seen := Some (<[n1 := tt]> m) |} n1
                = true).
  { unfold Seen. simpl. now rewrite lookup_insert_eq. }
  rewrite HS2 in H. unfold gen_ExpireSeen in H. simpl in H.
  rewrite Seen_ExpireSeen, ExpireSeen_limit_zero, HS1 in H. simpl in H.
  assert (Hinv' : history_below_ratchet
            (ExpireSeen (clock (S (S (ticks w)))) 0
               {| lastSerial := n2; seen := Some (<[n1 := tt]> m) |})).
  { intros x. rewrite Seen_ExpireSeen, andb_true_iff. intros [Hx _].
    unfold Seen in Hx. simpl in Hx |- *.
    destruct (decide (n1 = x)) as [<-|Hne]; [lia|].
    rewrite lookup_insert_ne in Hx by done.
    destruct (Z_le_gt_dec x (lastSerial (gen w))) as [Hle|Hgt]; [lia|].
    rewrite Hold in Hx by lia. discriminate. }
  destruct (Z.ltb_spec n1 (Time.UnixNano (clock (S (S (ticks w))))));
    simpl in H; injection H as <-; simpl.
  - split; [now rewrite app_nil_r|]. split; [reflexivity | exact Hinv'].
  - split; [reflexivity|]. split; [reflexivity | exact Hinv'].
Qed.

(** [TestOneTime] returns when the shared generator has a map and its first
    serial is below the largest [int64]. *)
Lemma TestOneTime_total (fuel : nat) clock w :
  (Z.to_nat (2 ^ 64) <= fuel)%nat ->
  is_Some (seen (gen w)) ->
  Z.max (Time.UnixNano (clock (ticks w))) (lastSerial (gen w) + 1) < max_int64 ->
  exists w', TestOneTime fuel clock w = Ok w'.
Proof.
  intros Hfuel [m Hm] Hn1. unfold TestOneTime.
  rewrite gen_Generate_total by (done || lia).
  set (n1 := Z.max (Time.UnixNano (clock (ticks w))) (lastSerial (gen w) + 1))
    in *.
  unfold gen_SetSeen, SetSeen. cbn [gen ticks log seen lastSerial].
  rewrite Hm.
  assert (HS1 : Seen {| lastSerial := n1; seen := Some (<[n1 := tt]> m) |} n1
                = true).
  { unfold Seen. simpl. now rewrite lookup_insert_eq. }
  cbn [gen ticks log]. rewrite HS1. cbn [negb].
  rewrite gen_Generate_total by (done || (cbn [gen lastSerial]; lia)).
  eexists. reflexivity.
Qed.

(** X13. [TestOneTime] on a generator whose history holds no value above the
    ratchet: its first two checks do not fire, and its last check fires
    exactly when the clock read by [ExpireSeen(0)] is not above the first
    serial of the test.  So the test needs the clock to move on between its
    first and its third reading, and the ratchet not to be ahead of the
    clock by more than that.  The test does return when the generator has a
    map and the first serial is below the largest [int64]. *)
Theorem TestOneTime_outcome clock w :
  history_below_ratchet (gen w) ->
  (forall (fuel : nat) w',
      TestOneTime fuel clock w = Ok w' ->
      log w' =
        log w ++
        (if Z.max (Time.UnixNano (clock (ticks w))) (lastSerial (gen w) + 1)
              <? Time.UnixNano (clock (S (S (ticks w))))
         then []
         else [Error "Emptied history but value was still 'seen'"])
      /\ ticks w' = S (S (S (ticks w)))
      /\ history_below_ratchet (gen w'))
  /\ (is_Some (seen (gen w)) ->
      Z.max (Time.UnixNano (clock (ticks w))) (lastSerial (gen w) + 1)
        < max_int64 ->
      exists fuel0 : nat, forall fuel : nat, (fuel0 <= fuel)%nat ->
        exists w', TestOneTime fuel clock w = Ok w').
Proof.
  intros Hinv. split.
  - intros fuel w' H. exact (TestOneTime_log fuel clock w w' Hinv H).
  - intros Hmap Hn1. exists (Z.to_nat (2 ^ 64)). intros fuel Hfuel.
    now apply TestOneTime_total.
Qed.

Lemma TestOneTime_outcome_witness :
  (log Cases.w_one_time_moving = log Cases.w_start ++ []
   /\ ticks Cases.w_one_time_moving = 3%nat
   /\ history_below_ratchet (gen Cases.w_one_time_moving))
  /\ (log Cases.w_one_time_still =
        log Cases.w_start
        ++ [Error "Emptied history but value was still 'seen'"]
      /\ ticks Cases.w_one_time_still = 3%nat
      /\ history_below_ratchet (gen Cases.w_one_time_still))
  /\ (exists fuel0 : nat, forall fuel : nat, (fuel0 <= fuel)%nat ->
        exists w', TestOneTime fuel Cases.clock_moving Cases.w_start = Ok w').
Proof.
  split; [|split].
  - apply (proj1 (TestOneTime_outcome Cases.clock_moving Cases.w_start
                    below_ratchet_new) 5%nat Cases.w_one_time_moving).
    vm_compute. reflexivity.
  - apply (proj1 (TestOneTime_outcome Cases.clock_still Cases.w_start
                    below_ratchet_new) 5%nat Cases.w_one_time_still).
    vm_compute. reflexivity.
  - apply (proj2 (TestOneTime_outcome Cases.clock_moving Cases.w_start
                    below_ratchet_new)).
    + exists ∅. reflexivity.
    + vm_compute. reflexivity.
Defined.

(** A map with unit values is as large as a list without repetitions of
    its keys. *)
Lemma size_of_keys (m : gmap Z unit) (l : list Z) :
  NoDup l -> (forall x, is_Some (m !! x) <-> x ∈ l) -> size m = length l.
Proof.
  intros Hnd. revert m. induction Hnd as [|x l Hx Hnd IH]; intros m Hkeys.
  - apply map_size_empty_iff, map_empty. intros x.
    destruct (m !! x) eqn:Hmx; [|done].
    assert (Hin : x ∈ []) by (apply Hkeys; eauto).
    now apply elem_of_nil in Hin.
  - destruct (proj2 (Hkeys x)) as [u Hu]; [apply elem_of_cons; now left|].
    rewrite <- (insert_delete_id m x u Hu).
    rewrite map_size_insert_None by apply lookup_delete_eq.
    simpl. f_equal. apply IH. intros y.
    destruct (decide (x = y)) as [<-|Hne].
    + rewrite lookup_delete_eq. split; [intros [? [=]] | done].
    + rewrite lookup_delete_ne by done. rewrite Hkeys, elem_of_cons.
      split; [intros [?|?]; [congruence | done] | now right].
Qed.

(** The count of the second loop of [TestGC] is the number of the values
    that are seen. *)
Lemma TestGC_count_filter g (vals : list Z) :
  TestGC_count g vals
  = Z.of_nat (length (filter (fun v => Seen g v = true) vals)).
Proof.
  unfold TestGC_count.
  assert (H : forall c,
    fold_left (fun count v => if Seen g v then count + 1 else count) vals c
    = c + Z.of_nat (length (filter (fun v => Seen g v = true) vals))).
  { induction vals as [|v vals IH]; intros c; simpl; [lia|].
    rewrite IH. destruct (Seen g v) eqn:Hv.
    - rewrite filter_cons_True by done. simpl length. lia.
    - rewrite filter_cons_False by (rewrite Hv; discriminate). lia. }
  apply H.
Qed.

(** The first loop of [TestGC]: it appends [n] serials to [vals], all
    above the ratchet and different, and the history grows by them. *)
Lemma TestGC_fill_spec fuel clock (n : nat) vals w vals' w' :
  history_below_ratchet (gen w) ->
  TestGC_fill fuel clock n vals w = Ok (vals', w') ->
  exists ids,
    vals' = vals ++ ids
    /\ length ids = n
    /\ NoDup ids
    /\ Forall (fun v => lastSerial (gen w) < v) ids
    /\ (forall x, Seen (gen w') x = true <-> Seen (gen w) x = true \/ x ∈ ids)
    /\ len_seen (gen w') = (len_seen (gen w) + n)%nat
    /\ lastSerial (gen w) + Z.of_nat n <= lastSerial (gen w')
    /\ log w' = log w
    /\ ticks w' = (ticks w + n)%nat.
Proof.
  revert vals w. induction n as [|n IH]; intros vals w Hinv.
  - simpl. intros [= <- <-]. exists []. rewrite app_nil_r.
    repeat split; try done; try lia; [constructor|tauto|].
    intros [?|Hin]; [done | now apply elem_of_nil in Hin].
  - simpl TestGC_fill.
    destruct (gen_Generate fuel clock w) as [[v w1]| |] eqn:H1; [|done..].
    apply gen_Generate_inv in H1 as (Hv & _ & ->).
    assert (Hlt : lastSerial (gen w) < v) by lia. clear Hv.
    unfold gen_SetSeen, SetSeen. simpl.
    destruct (seen (gen w)) as [m|] eqn:Hm; [|done].
    assert (Hnew : m !! v = None).
    { destruct (m !! v) eqn:Hmv; [|done].
      assert (Hs : Seen (gen w) v = true) by (unfold Seen; now rewrite Hm, Hmv).
      specialize (Hinv v Hs). lia. }
    set (w2 := {| gen := {| lastSerial := v; seen := Some (<[v := tt]> m) |};
                  ticks := S (ticks w); log := log w |}).
    assert (HS2 : forall x, Seen (gen w2) x = true <->
                    x = v \/ Seen (gen w) x = true).
    { intros x. unfold Seen. simpl. rewrite Hm.
      destruct (decide (v = x)) as [<-|Hne].
      - rewrite lookup_insert_eq. tauto.
      - rewrite lookup_insert_ne by done. split; [tauto|].
        intros [?|?]; [congruence | done]. }
    assert (Hinv2 : history_below_ratchet (gen w2)).
    { intros x [->|Hx]%HS2; simpl; [lia|]. specialize (Hinv x Hx). lia. }
    intros H. destruct (IH _ _ Hinv2 H)
      as (ids & -> & Hlen & Hnd & Hall & Hseen & Hsize & Hlast & Hlog & Hticks).
    simpl in Hall, Hlast, Hlog, Hticks.
    assert (Hsize2 : len_seen (gen w2) = S (len_seen (gen w))).
    { unfold len_seen, w2. simpl gen. simpl seen. rewrite Hm.
      now apply map_size_insert_None. }
    exists (v :: ids). rewrite <- app_assoc. simpl.
    split; [done|]. split; [now rewrite Hlen|]. split.
    { apply NoDup_cons_2; [|done]. intros Hin.
      rewrite Forall_forall in Hall. specialize (Hall v Hin). lia. }
    split.
    { constructor; [done|]. eapply Forall_impl; [exact Hall|].
      simpl. intros; lia. }
    split.
    { intros x. rewrite Hseen, HS2, elem_of_cons. tauto. }
    split.
    { rewrite Hsize, Hsize2. lia. }
    split; [lia|]. split; [done | lia].
Qed.

(** What [TestGC] has told when it returns. *)
Lemma TestGC_log (fuel : nat) clock w w' :
  seen (gen w) = Some ∅ ->
  0 <= lastSerial (gen w) ->
  TestGC fuel clock false w = Ok w' ->
  log w' =
    log w ++
    (if Z.of_nat (len_seen (gen w')) =? 50
     then []
     else [Errorf "History wrong length after expire, expected 50 got %d"
             [Z.of_nat (len_seen (gen w'))]])
  /\ ticks w' = (ticks w + 101)%nat
  /\ lastSerial (gen w) + 100 <= lastSerial (gen w').
Proof.
  intros Hempty Hlast0 H. unfold TestGC in H.
  assert (Hnone : forall x, Seen (gen w) x = false).
  { intros x. unfold Seen. rewrite Hempty. now rewrite lookup_empty. }
  assert (Hinv : history_below_ratchet (gen w)).
  { intros x. now rewrite Hnone. }
  destruct (TestGC_fill fuel clock 100 (replicate 100 0) w)
    as [[vals w1]| |] eqn:Hfill; [|done..].
  apply TestGC_fill_spec in Hfill
    as (ids & -> & Hlen & Hnd & Hall & Hseen & Hsize & Hlast & Hlog & Hticks);
    [|exact Hinv].
  assert (Hbefore : Z.of_nat (len_seen (gen w1)) = 100).
  { rewrite Hsize. unfold len_seen. rewrite Hempty, map_size_empty. lia. }
  rewrite Hbefore in H. change (negb (100 =? 100)) with false in H.
  cbv iota in H. unfold gen_ExpireSeen in H. cbn [gen ticks log tell] in H.
  set (g3 := ExpireSeen (clock (ticks w1)) (Millisecond * 5050) (gen w1)) in *.
  assert (Hg3 : forall x, Seen g3 x = true -> x ∈ ids).
  { intros x. unfold g3. rewrite Seen_ExpireSeen, andb_true_iff.
    intros [[Hx|Hx]%Hseen _]; [|done]. now rewrite Hnone in Hx. }
  assert (Hzero : Seen g3 0 = false).
  { destruct (Seen g3 0) eqn:H0; [|done]. apply Hg3 in H0.
    rewrite Forall_forall in Hall. specialize (Hall 0 H0). lia. }
  assert (Hcount : TestGC_count g3 (replicate 100 0 ++ ids)
                   = Z.of_nat (len_seen g3)).
  { rewrite TestGC_count_filter, filter_app. f_equal.
    assert (filter (fun v => Seen g3 v = true) (replicate 100 0) = []) as ->.
    { generalize 100%nat. intros k. induction k as [|k IHk]; [done|].
      simpl replicate. rewrite filter_cons_False; [done|].
      rewrite Hzero. discriminate. }
    simpl app. symmetry. unfold len_seen.
    destruct (seen g3) as [m3|] eqn:Hm3.
    - apply size_of_keys; [now apply NoDup_filter|]. intros x.
      rewrite list_elem_of_filter. rewrite <- (Seen_Some g3 m3 x Hm3).
      split; [intros Hx; split; [done | now apply Hg3] | tauto].
    - assert (Hnil : forall x, Seen g3 x = false).
      { intros x. unfold Seen. now rewrite Hm3. }
      induction ids as [|v ids' _]; [done|].
      assert (Hv : Seen g3 v = true); [|now rewrite Hnil in Hv].
      exfalso. unfold g3, ExpireSeen in Hm3. simpl in Hm3.
      destruct (seen (gen w1)) eqn:Hs1; [done|].
      assert (Hv1 : Seen (gen w1) v = true).
      { apply Hseen. right. apply elem_of_cons. now left. }
      unfold Seen in Hv1. now rewrite Hs1 in Hv1. }
  assert (Hl3 : lastSerial g3 = lastSerial (gen w1)) by reflexivity.
  destruct (Z.eqb_spec (Z.of_nat (len_seen g3)) 50) as [H50|H50];
    cbn [negb] in H; cbv iota in H; cbn [gen ticks log tell] in H;
    rewrite Hcount, Z.eqb_refl in H; cbn [negb] in H; cbv iota in H;
    injection H as <-; cbn [gen ticks log tell].
  - rewrite H50. change (50 =? 50) with true. cbv iota.
    rewrite app_nil_r. split; [done|]. split; lia.
  - destruct (Z.eqb_spec (Z.of_nat (len_seen g3)) 50) as [|_]; [done|].
    split; [now rewrite Hlog|]. split; lia.
Qed.

(** The first loop of [TestGC] returns while the generator has a map and
    the ratchet and the clock leave room for its serials. *)
Lemma TestGC_fill_total (fuel : nat) clock (n : nat) vals w :
  (Z.to_nat (2 ^ 64) <= fuel)%nat ->
  is_Some (seen (gen w)) ->
  lastSerial (gen w) + Z.of_nat n <= max_int64 ->
  (forall k, Time.UnixNano (clock k) + Z.of_nat n <= max_int64) ->
  exists vals' w', TestGC_fill fuel clock n vals w = Ok (vals', w').
Proof.
  intros Hfuel. revert vals w.
  induction n as [|n IH]; intros vals w [m Hm] Hlast Hclock.
  - eexists _, _. reflexivity.
  - cbn [TestGC_fill].
    rewrite gen_Generate_total by (done || lia).
    unfold gen_SetSeen, SetSeen. cbn [gen ticks log seen lastSerial].
    rewrite Hm. apply IH.
    + cbn [gen seen]. eauto.
    + cbn [gen lastSerial]. specialize (Hclock (ticks w)). lia.
    + intros k. specialize (Hclock k). lia.
Qed.

(** X14. [TestGC], not in short mode, on a generator whose history is empty
    and whose ratchet is not below zero: its first and its last check do not
    fire, whatever the clock reads.  The hundred zeros at the front of
    [vals] do no harm, as zero is not in the history.  The one check that
    can fire is the middle one, when the history does not hold 50 serials
    after [ExpireSeen].  The test does return when the ratchet and the clock
    are at least 100 below the largest [int64]. *)
Theorem TestGC_outcome clock w :
  seen (gen w) = Some ∅ ->
  0 <= lastSerial (gen w) ->
  (forall (fuel : nat) w',
      TestGC fuel clock false w = Ok w' ->
      log w' =
        log w ++
        (if Z.of_nat (len_seen (gen w')) =? 50
         then []
         else [Errorf "History wrong length after expire, expected 50 got %d"
                 [Z.of_nat (len_seen (gen w'))]])
      /\ ticks w' = (ticks w + 101)%nat
      /\ lastSerial (gen w) + 100 <= lastSerial (gen w'))
  /\ (lastSerial (gen w) + 100 <= max_int64 ->
      (forall k, Time.UnixNano (clock k) + 100 <= max_int64) ->
      exists fuel0 : nat, forall fuel : nat, (fuel0 <= fuel)%nat ->
        exists w', TestGC fuel clock false w = Ok w').
Proof.
  intros Hempty Hlast0. split.
  - intros fuel w' H. exact (TestGC_log fuel clock w w' Hempty Hlast0 H).
  - intros Hlast Hclock. exists (Z.to_nat (2 ^ 64)). intros fuel Hfuel.
    unfold TestGC.
    destruct (TestGC_fill_total fuel clock 100 (replicate 100 0) w Hfuel)
      as (vals & w1 & ->).
    + rewrite Hempty. eauto.
    + lia.
    + intros k. specialize (Hclock k). lia.
    + eexists. reflexivity.
Qed.

Lemma TestGC_outcome_witness :
  (log Cases.w_gc_tenths =
     log Cases.w_start ++
     (if Z.of_nat (len_seen (gen Cases.w_gc_tenths)) =? 50
      then []
      else [Errorf "History wrong length after expire, expected 50 got %d"
              [Z.of_nat (len_seen (gen Cases.w_gc_tenths))]])
   /\ ticks Cases.w_gc_tenths = (ticks Cases.w_start + 101)%nat
   /\ lastSerial (gen Cases.w_start) + 100
      <= lastSerial (gen Cases.w_gc_tenths))
  /\ (exists fuel0 : nat, forall fuel : nat, (fuel0 <= fuel)%nat ->
        exists w', TestGC fuel Cases.clock_still false Cases.w_start = Ok w').
Proof.
  assert (Hlast0 : 0 <= lastSerial (gen Cases.w_start))
    by (vm_compute; discriminate).
  split.
  - apply (proj1 (TestGC_outcome Cases.clock_tenths Cases.w_start
                    eq_refl Hlast0) 5%nat Cases.w_gc_tenths).
    vm_compute. reflexivity.
  - apply (proj2 (TestGC_outcome Cases.clock_still Cases.w_start
                    eq_refl Hlast0)).
    + vm_compute. discriminate.
    + intros k. vm_compute. discriminate.
Defined.

End Test_facts.
